(** * CTNR: Compile Time Name Reflector

    A shallow embedding of [CTNR.hpp] and the properties of its
    compile-time procedures.

    - [unsigned] values are integers in [0, 2^32) with the wrap-around of
      every arithmetic operation written out ([u32]).
    - A [const char*] is modelled by the elements of the pointed-to array
      from the pointee to the end of the array ([cptr]): [*p] is the head,
      [p + n] drops [n] elements, [p[i]] is the [i]-th element.
    - Every procedure is evaluated in a constant expression.  An
      evaluation that leaves the array (undefined behaviour) is not a
      constant expression and the program is ill-formed: the embedding
      returns [None] there, and [Some v] when the evaluation yields [v]. *)

From Stdlib Require Import ZArith Ascii String.
From stdpp Require Import base tactics option list list_numbers strings.

Local Open Scope Z_scope.

(** ** Machine integers and characters *)

(** The value of an [unsigned] expression whose mathematical value is [z]. *)
Definition u32 (z : Z) : Z := z mod 2 ^ 32.

(** The terminator ['\0']. *)
Definition NUL : ascii := Ascii.zero.

(** The characters of a string literal, without its terminator. *)
Definition chars (s : string) : list ascii := list_ascii_of_string s.

(** ** Pointers into constant character arrays *)

Abbreviation cptr := (list ascii) (only parsing).

(** [p + n]: defined up to one past the last element of the array. *)
Definition ptr_add (p : cptr) (n : Z) : option cptr :=
  if decide (0 ≤ n ≤ Z.of_nat (length p)) then Some (drop (Z.to_nat n) p) else None.

(** [p[i]]: defined on the elements of the array only. *)
Definition subscript (p : cptr) (i : Z) : option ascii :=
  if decide (0 ≤ i) then p !! Z.to_nat i else None.

(** The characters of a null-terminated array up to its terminator. *)
Fixpoint c_str (p : cptr) : list ascii :=
  match p with
  | [] => []
  | c :: p' => if Ascii.eqb c NUL then [] else c :: c_str p'
  end.

(** ** The translation environment

    [FFN<T>()] returns [__PRETTY_FUNCTION__] or [__FUNCSIG__]: a string
    literal chosen by the compiler for every type [T].  [signature T] is
    the text of that literal; the array itself ends with a terminator. *)

Class Compiler (type : Type) := {
  void : type;
  signature : type → list ascii
}.

(** A few types, named as in the header's examples. *)
Inductive sample_type : Type :=
  | ty_void
  | ty_int
  | ty_classy
  | ty_structy_classy.

(** What g++ writes for [__PRETTY_FUNCTION__] in [FFN]. *)
Definition gcc_spelling (T : sample_type) : string :=
  match T with
  | ty_void => "void"
  | ty_int => "int"
  | ty_classy => "classy"
  | ty_structy_classy => "structy<classy>"
  end.

Definition gcc_signature (T : sample_type) : list ascii :=
  chars "constexpr const char* CTNR::Impl::FFN() [with T = " ++ chars (gcc_spelling T) ++ chars "]".

(** What MSVC writes for [__FUNCSIG__] in [FFN]. *)
Definition msvc_spelling (T : sample_type) : string :=
  match T with
  | ty_void => "void"
  | ty_int => "int"
  | ty_classy => "class classy"
  | ty_structy_classy => "struct structy<class classy>"
  end.

Definition msvc_signature (T : sample_type) : list ascii :=
  chars "const char *__cdecl CTNR::Impl::FFN<" ++ chars (msvc_spelling T) ++ chars ">(void)".

(** A translation environment whose text for [void] has a [v] right
    before the type's spelling. *)
Definition vvoid_signature (T : sample_type) : list ascii :=
  chars "FFNv" ++ chars (gcc_spelling T) ++ chars ";".

(** A translation environment that does not spell [void] out. *)
Definition opaque_signature (T : sample_type) : list ascii :=
  match T with
  | ty_void => chars "FFN<$v>"
  | ty_int => chars "FFN<$i>"
  | ty_classy => chars "FFN<$6classy>"
  | ty_structy_classy => chars "FFN<$7structyI$6classyE>"
  end.

(** A translation environment whose text after the spelling is longer for
    [void] than for the other types. *)
Definition uneven_signature (T : sample_type) : list ascii :=
  match T with
  | ty_void => chars "FFN<void> [primitive]"
  | _ => chars "FFN<" ++ chars (gcc_spelling T) ++ chars ">"
  end.

Definition gcc : Compiler sample_type := {| void := ty_void; signature := gcc_signature |}.
Definition msvc : Compiler sample_type := {| void := ty_void; signature := msvc_signature |}.
Definition vvoid_compiler : Compiler sample_type := {| void := ty_void; signature := vvoid_signature |}.
Definition opaque_compiler : Compiler sample_type := {| void := ty_void; signature := opaque_signature |}.
Definition uneven_compiler : Compiler sample_type := {| void := ty_void; signature := uneven_signature |}.

(** ** namespace CTNR::Impl *)

Module Impl.

(** Compile Time Length: [*inLiteral ? CTL(inLiteral + 1, tail + 1) : tail]. *)
Fixpoint CTL (inLiteral : cptr) (tail : Z) : option Z :=
  match inLiteral with
  | [] => None (* [*inLiteral] one past the end of the array *)
  | c :: inLiteral_1 =>
      if Ascii.eqb c NUL then Some tail
      else CTL inLiteral_1 (u32 (tail + 1))
  end.

(** The array denoted by the literal ["void"]. *)
Definition void_literal : list ascii := chars "void" ++ [NUL].

(** ["void"[match] == c ? match + 1 : 0], the counter passed on by [CTFV]. *)
Definition void_match (match_ : Z) (c : ascii) : option Z :=
  lit ← subscript void_literal match_;
  Some (if Ascii.eqb lit c then u32 (match_ + 1) else 0).

(** Compile Time Find Void:
    [4 == match ? tail - 4
       : ( *inLiteral ? CTFV(inLiteral + 1, tail + 1, ...) : -1 )]. *)
Fixpoint CTFV (inLiteral : cptr) (tail match_ : Z) : option Z :=
  if 4 =? match_ then Some (u32 (tail - 4))
  else
    match inLiteral with
    | [] => None (* [*inLiteral] one past the end of the array *)
    | c :: inLiteral_1 =>
        if Ascii.eqb c NUL then Some (u32 (-1))
        else
          match_1 ← void_match match_ c;
          CTFV inLiteral_1 (u32 (tail + 1)) match_1
    end.

(** CStr Wrapper: [CSW<N>] holds [const char val[N]]. *)
Record CSW : Type := { CSW_N : Z; val : list ascii }.

(** Aggregate initialisation of a [CSW<N>] from a braced list: more
    initialisers than elements is ill-formed, missing ones are zero. *)
Definition CSW_init (N : Z) (elems : list ascii) : option CSW :=
  if decide (Z.of_nat (length elems) ≤ N)
  then Some {| CSW_N := N; val := elems ++ replicate (Z.to_nat N - length elems) NUL |}
  else None.

(** The pack [Is...] of the specialisation for [Gen = 0] that the
    expansion of [ISeq<N, Gen, Is...>] arrives at, through
    [ISeq<N, Gen - 1, Gen - 1, Is...>]. *)
Fixpoint ISeq_Is (Gen : nat) (Is : list Z) : list Z :=
  match Gen with
  | S Gen_1 => ISeq_Is Gen_1 (Z.of_nat Gen_1 :: Is)
  | O => Is
  end.

(** [ISeq<N, Gen, Is...>::STN]: the primary template passes on to
    [ISeq<N, Gen - 1, Gen - 1, Is...>]; the specialisation for
    [Gen = 0] returns [{ inLiteral[Is]..., '\0' }]. *)
Fixpoint ISeq_STN (N : Z) (Gen : nat) (Is : list Z) (inLiteral : cptr) : option CSW :=
  match Gen with
  | S Gen_1 => ISeq_STN N Gen_1 (Z.of_nat Gen_1 :: Is) inLiteral
  | O =>
      elems ← mapM (subscript inLiteral) Is;
      CSW_init (u32 (N + 1)) (elems ++ [NUL])
  end.

Section Calibrated.
Context {type : Type} {C : Compiler type}.

(** Full Function Name. *)
Definition FFN (T : type) : cptr := signature T ++ [NUL].

Definition s_OffsetStart : option Z := CTFV (FFN void) 0 0.

Definition s_OffsetREnd : option Z :=
  start ← s_OffsetStart;
  p ← ptr_add (FFN void) start;
  p4 ← ptr_add p 4;
  CTL p4 0.

(** [TNH<T>::s_Len]. *)
Definition s_Len (T : type) : option Z :=
  start ← s_OffsetStart;
  p ← ptr_add (FFN T) start;
  len ← CTL p 0;
  rend ← s_OffsetREnd;
  Some (u32 (len - rend)).

(** [TNH<T>::s_Str]. *)
Definition s_Str (T : type) : option CSW :=
  N ← s_Len T;
  start ← s_OffsetStart;
  p ← ptr_add (FFN T) start;
  ISeq_STN N (Z.to_nat N) [] p.

End Calibrated.

End Impl.

(** ** namespace CTNR *)

(** The objects with static storage duration that the header defines. *)
Inductive static_object (type : Type) : Type :=
  | Impl_s_OffsetStart
  | Impl_s_OffsetREnd
  | TNH_s_Len (T : type)
  | TNH_s_Str (T : type).
Arguments Impl_s_OffsetStart {type}.
Arguments Impl_s_OffsetREnd {type}.
Arguments TNH_s_Len {type} T.
Arguments TNH_s_Str {type} T.

(** An lvalue of array type: the object it refers to and the characters
    stored there. *)
Record array_ref (type : Type) : Type := {
  storage : static_object type;
  target : list ascii
}.
Arguments storage {type} _.
Arguments target {type} _.

(** [GetName<T>()] returns [TNH<T>::s_Str.val] by reference. *)
Definition GetName {type : Type} {C : Compiler type} (T : type) : option (array_ref type) :=
  s ← Impl.s_Str T;
  Some {| storage := TNH_s_Str T; target := Impl.val s |}.

(** ** Vocabulary of the properties *)

(** The literal occupies positions [i .. i + 3] of [s]. *)
Definition void_at (s : list ascii) (i : nat) : Prop :=
  take 4 (drop i s) = chars "void".

(** The match counter of [CTFV] run on its own over the characters [s],
    from the counter value [match_]: the number of characters consumed
    when the counter first reads 4, if it ever does. *)
Fixpoint void_scan (s : list ascii) (match_ : Z) : option nat :=
  if 4 =? match_ then Some 0%nat
  else
    match s with
    | [] => None
    | c :: s' => match_1 ← Impl.void_match match_ c; S <$> void_scan s' match_1
    end.

(** The value of the match counter of [CTFV] after the characters [s]. *)
Fixpoint void_counter (s : list ascii) (match_ : Z) : option Z :=
  match s with
  | [] => Some match_
  | c :: s' => match_1 ← Impl.void_match match_ c; void_counter s' match_1
  end.

(** The signatures have the same text around the spelling of every type,
    and [void] is spelled ["void"]. *)
Record uniform_boilerplate {type : Type} {C : Compiler type}
    (prefix suffix : list ascii) (spelling : type → list ascii) : Prop := {
  signature_shape : ∀ T, signature T = prefix ++ spelling T ++ suffix;
  void_spelling : spelling void = chars "void"
}.

(** The array [FFN<T>()] has no terminator but its last element and can
    be indexed by an [unsigned]. *)
Definition plain_signature {type : Type} {C : Compiler type} (T : type) : Prop :=
  (NUL ∉ signature T) ∧ (Z.of_nat (length (Impl.FFN T)) < 2 ^ 32).

(** * Properties *)

(** Closed decidable facts are settled by evaluation. *)
Ltac by_computation :=
  apply (bool_decide_unpack _); vm_compute; exact I.

(** ** The header's examples, evaluated *)

Example gcc_offsets :
  Impl.s_OffsetStart (C:=gcc) = Some 50 ∧ Impl.s_OffsetREnd (C:=gcc) = Some 1.
Proof. split; reflexivity. Qed.

Example msvc_offsets :
  Impl.s_OffsetStart (C:=msvc) = Some 36 ∧ Impl.s_OffsetREnd (C:=msvc) = Some 7.
Proof. split; reflexivity. Qed.

Example gcc_classy :
  target <$> GetName (C:=gcc) ty_classy = Some (chars "classy" ++ [NUL]).
Proof. vm_compute. reflexivity. Qed.

Example gcc_structy_classy :
  target <$> GetName (C:=gcc) ty_structy_classy = Some (chars "structy<classy>" ++ [NUL]).
Proof. vm_compute. reflexivity. Qed.

Example msvc_classy :
  target <$> GetName (C:=msvc) ty_classy = Some (chars "class classy" ++ [NUL]).
Proof. vm_compute. reflexivity. Qed.

Example msvc_structy_classy :
  target <$> GetName (C:=msvc) ty_structy_classy
  = Some (chars "struct structy<class classy>" ++ [NUL]).
Proof. vm_compute. reflexivity. Qed.

Example vvoid_offsets :
  Impl.s_OffsetStart (C:=vvoid_compiler) = Some 4294967295 ∧
  Impl.s_OffsetREnd (C:=vvoid_compiler) = None ∧
  GetName (C:=vvoid_compiler) ty_void = None.
Proof. repeat split; vm_compute; reflexivity. Qed.

(** ** Arithmetic of [unsigned] *)

Lemma u32_range z : 0 ≤ u32 z < 2 ^ 32.
Proof. unfold u32. apply Z.mod_pos_bound. lia. Qed.

Lemma u32_small z : 0 ≤ z < 2 ^ 32 → u32 z = z.
Proof. unfold u32. intros. apply Z.mod_small. lia. Qed.

Lemma u32_add_l a b : u32 (u32 a + b) = u32 (a + b).
Proof. unfold u32. apply Zplus_mod_idemp_l. Qed.

Lemma u32_sub_sub a b : u32 (u32 a - u32 b) = u32 (a - b).
Proof. unfold u32. symmetry. apply Zminus_mod. Qed.

Lemma u32_minus_one : u32 (-1) = 4294967295.
Proof. reflexivity. Qed.

Lemma u32_borrow z : - 2 ^ 32 ≤ z < 0 → u32 z = z + 2 ^ 32.
Proof.
  intros Hz. unfold u32.
  rewrite <- (Z.mod_add z 1 (2 ^ 32)) by lia.
  apply Z.mod_small. lia.
Qed.

(** ** Characters and pointers *)

Lemma eqb_NUL_false c : c ≠ NUL → Ascii.eqb c NUL = false.
Proof. intros Hc. apply Ascii.eqb_neq. exact Hc. Qed.

Lemma not_elem_of_cons_NUL c (s : list ascii) : NUL ∉ c :: s → c ≠ NUL ∧ NUL ∉ s.
Proof. intros Hn. split; [intros -> | intros Hin]; apply Hn; constructor; done. Qed.

Lemma ptr_add_Some (p : cptr) (n : nat) :
  (n ≤ length p)%nat → ptr_add p (Z.of_nat n) = Some (drop n p).
Proof.
  intros Hn. unfold ptr_add. rewrite decide_True by lia. by rewrite Nat2Z.id.
Qed.

Lemma ptr_add_None (p : cptr) (n : Z) :
  Z.of_nat (length p) < n → ptr_add p n = None.
Proof. intros Hn. unfold ptr_add. rewrite decide_False by lia. done. Qed.

Lemma ptr_add_app (s q : list ascii) : ptr_add (s ++ q) (Z.of_nat (length s)) = Some q.
Proof.
  rewrite ptr_add_Some by (rewrite length_app; lia).
  by rewrite drop_app_length.
Qed.

Lemma subscript_lookup (p : cptr) (i : nat) : subscript p (Z.of_nat i) = p !! i.
Proof. unfold subscript. rewrite decide_True by lia. by rewrite Nat2Z.id. Qed.

Lemma c_str_app (s rest : list ascii) : NUL ∉ s → c_str (s ++ NUL :: rest) = s.
Proof.
  induction s as [|c s IH]; simpl; intros Hn; [done|].
  apply not_elem_of_cons_NUL in Hn as [Hc Hs].
  rewrite eqb_NUL_false by done. by rewrite IH.
Qed.

(** ** [CTL] *)

Lemma CTL_counts (s rest : list ascii) (tail : Z) :
  NUL ∉ s → 0 ≤ tail < 2 ^ 32 →
  Impl.CTL (s ++ NUL :: rest) tail = Some (u32 (tail + Z.of_nat (length s))).
Proof.
  revert tail. induction s as [|c s IH]; intros tail Hn Ht; simpl.
  - rewrite Z.add_0_r, u32_small by done. done.
  - apply not_elem_of_cons_NUL in Hn as [Hc Hs].
    rewrite eqb_NUL_false by done.
    rewrite IH by (done || apply u32_range).
    rewrite u32_add_l. f_equal. f_equal. lia.
Qed.

Lemma CTL_below (p : cptr) (tail v : Z) :
  0 ≤ tail → Impl.CTL p tail = Some v → v < tail + Z.of_nat (length p).
Proof.
  revert tail. induction p as [|c p IH]; intros tail Ht; simpl; [done|].
  destruct (Ascii.eqb c NUL); [intros [= <-]; lia|].
  intros Hv. apply IH in Hv; [|apply u32_range].
  assert (u32 (tail + 1) ≤ tail + 1) by (apply Z.mod_le; lia). lia.
Qed.

Lemma CTL_range p tail v : 0 ≤ tail < 2 ^ 32 → Impl.CTL p tail = Some v → 0 ≤ v < 2 ^ 32.
Proof.
  revert tail. induction p as [|c p IH]; intros tail Ht; simpl; [done|].
  destruct (Ascii.eqb c NUL); [by intros [= <-]|].
  apply IH, u32_range.
Qed.

(** ** [CTFV] and its match counter *)

Lemma void_match_step (m : Z) (c : ascii) :
  0 ≤ m < 4 →
  ∃ m1, Impl.void_match m c = Some m1 ∧ 0 ≤ m1 ≤ 4 ∧
    ((m1 = m + 1 ∧ Impl.void_literal !! Z.to_nat m = Some c) ∨ m1 = 0).
Proof.
  intros Hm.
  assert (m = 0 ∨ m = 1 ∨ m = 2 ∨ m = 3) as Hcases by lia.
  destruct Hcases as [-> | [-> | [-> | ->]]]; unfold Impl.void_match;
    match goal with
    | |- context [subscript ?l ?i] =>
        let lit := eval vm_compute in (subscript l i) in
        change (subscript l i) with lit
    end; cbn [mbind option_bind];
    match goal with
    | |- context [Ascii.eqb ?l c] =>
        destruct (Ascii.eqb_spec l c) as [<- | _]; eexists; (split; [reflexivity|])
    end; (split; [done|]); (by left) || (by right).
Qed.

Lemma is_four_false m : m ≠ 4 → (4 =? m) = false.
Proof. intros. apply Z.eqb_neq. lia. Qed.

Lemma CTFV_range p tail m v : Impl.CTFV p tail m = Some v → 0 ≤ v < 2 ^ 32.
Proof.
  revert tail m. induction p as [|c p IH]; intros tail m; cbn [Impl.CTFV].
  - destruct (4 =? m); [intros [= <-]; apply u32_range | done].
  - destruct (4 =? m); [intros [= <-]; apply u32_range |].
    destruct (Ascii.eqb c NUL); [intros [= <-]; apply u32_range |].
    destruct (Impl.void_match m c) as [m1|]; cbn [mbind option_bind]; [apply IH | done].
Qed.

(** On a null-terminated array [CTFV] is its match counter run up to the
    terminator: the offset of the run when the counter reads 4, and [-1]
    when the terminator comes first. *)
Lemma CTFV_void_scan (s rest : list ascii) (tail m : Z) :
  NUL ∉ s → 0 ≤ m ≤ 4 → 0 ≤ tail < 2 ^ 32 →
  Impl.CTFV (s ++ NUL :: rest) tail m =
    Some (match void_scan s m with
          | Some k => u32 (tail + Z.of_nat k - 4)
          | None => u32 (-1)
          end).
Proof.
  revert tail m. induction s as [|c s IH]; intros tail m Hn Hm Ht.
  - cbn [app Impl.CTFV void_scan]. destruct (Z.eqb_spec 4 m) as [<- | Hne].
    + do 2 f_equal. lia.
    + by rewrite Ascii.eqb_refl.
  - apply not_elem_of_cons_NUL in Hn as [Hc Hs].
    cbn [app Impl.CTFV void_scan].
    destruct (Z.eqb_spec 4 m) as [<- | Hne].
    + do 2 f_equal. lia.
    + rewrite eqb_NUL_false by done.
      destruct (void_match_step m c) as (m1 & -> & Hm1 & _); [lia|].
      cbn [mbind option_bind]. rewrite IH by (done || apply u32_range).
      destruct (void_scan s m1) as [k|]; cbn [fmap option_fmap option_map]; [|done].
      rewrite <- Z.add_sub_assoc, u32_add_l. do 2 f_equal. lia.
Qed.

(** A completed match ends a run of the literal: the counter is sound. *)
Lemma void_scan_sound (s pre : list ascii) (m : Z) (k : nat) :
  0 ≤ m ≤ 4 →
  take (Z.to_nat m) (chars "void") `suffix_of` pre →
  void_scan s m = Some k →
  (4 ≤ length pre + k)%nat ∧ void_at (pre ++ s) (length pre + k - 4).
Proof.
  revert pre m k. induction s as [|c s IH]; intros pre m k Hm Hsuf.
  - cbn [void_scan]. destruct (Z.eqb_spec 4 m) as [<- | Hne]; [|done].
    intros [= <-]. destruct Hsuf as [pre0 ->]. simpl.
    rewrite !length_app. simpl. split; [lia|].
    unfold void_at. replace (length pre0 + 4 + 0 - 4)%nat with (length pre0) by lia.
    rewrite app_nil_r, drop_app_length. done.
  - cbn [void_scan]. destruct (Z.eqb_spec 4 m) as [<- | Hne].
    + intros [= <-]. destruct Hsuf as [pre0 ->]. simpl.
      rewrite !length_app. simpl. split; [lia|].
      unfold void_at. replace (length pre0 + 4 + 0 - 4)%nat with (length pre0) by lia.
      rewrite <- app_assoc, drop_app_length. done.
    + destruct (void_match_step m c) as (m1 & -> & Hm1 & Hstep); [lia|].
      cbn [mbind option_bind].
      destruct (void_scan s m1) as [k1|] eqn:Hk1; cbn [fmap option_fmap option_map]; [|done].
      intros [= <-].
      destruct (IH (pre ++ [c]) m1 k1) as [Hlen Hat]; [done| |done|].
      * destruct Hstep as [[-> Hlit] | ->]; [|apply suffix_nil].
        destruct Hsuf as [pre0 ->]. exists pre0.
        rewrite <- app_assoc. f_equal.
        assert (m = 0 ∨ m = 1 ∨ m = 2 ∨ m = 3) as Hcases by lia.
        destruct Hcases as [-> | [-> | [-> | ->]]]; simpl in Hlit |- *; congruence.
      * rewrite length_app in Hlen, Hat. simpl in Hlen, Hat.
        rewrite <- app_assoc in Hat. simpl in Hat.
        split; [lia|].
        replace (length pre + S k1 - 4)%nat with (length pre + 1 + k1 - 4)%nat by lia.
        done.
Qed.

Lemma void_scan_occurs (s : list ascii) (k : nat) :
  void_scan s 0 = Some k → (4 ≤ k ≤ length s)%nat ∧ void_at s (k - 4).
Proof.
  intros Hk.
  destruct (void_scan_sound s [] 0 k) as [Hlen Hat]; [lia|apply suffix_nil|done|].
  simpl in Hlen, Hat. split; [split; [done|]|done].
  unfold void_at in Hat.
  assert (length (take 4 (drop (k - 4) s)) = 4%nat) as Hl by (by rewrite Hat).
  rewrite length_take, length_drop in Hl. lia.
Qed.

(** No run of the literal, no completed match. *)
Lemma void_scan_absent (s : list ascii) :
  (∀ i, ¬ void_at s i) → void_scan s 0 = None.
Proof.
  intros Habs. destruct (void_scan s 0) as [k|] eqn:Hk; [|done].
  apply void_scan_occurs in Hk as [_ Hat]. by apply Habs in Hat.
Qed.

Lemma void_at_lookup (s : list ascii) (i : nat) :
  void_at s i →
  s !! i = Some "v"%char ∧ s !! (i + 1)%nat = Some "o"%char ∧
  s !! (i + 2)%nat = Some "i"%char ∧ s !! (i + 3)%nat = Some "d"%char.
Proof.
  unfold void_at. intros Hat.
  assert (∀ j, (j < 4)%nat → s !! (i + j)%nat = chars "void" !! j) as Hj.
  { intros j Hlt. rewrite <- Hat, lookup_take_lt, lookup_drop by done. done. }
  rewrite <- (Nat.add_0_r i) at 1.
  rewrite !Hj by lia. done.
Qed.

(** ** [ISeq::STN] *)

(** The expansion reaches the specialisation for [Gen = 0] with the
    indices below [Gen] put, in increasing order, before the pack. *)
Lemma ISeq_STN_Is (N : Z) (Gen : nat) (Is : list Z) (p : cptr) :
  Impl.ISeq_STN N Gen Is p = Impl.ISeq_STN N 0 (Impl.ISeq_Is Gen Is) p.
Proof. revert Is. induction Gen as [|Gen IH]; intros Is; [done | apply IH]. Qed.

Lemma ISeq_Is_seqZ (Gen : nat) (Is : list Z) :
  Impl.ISeq_Is Gen Is = seqZ 0 (Z.of_nat Gen) ++ Is.
Proof.
  revert Is. induction Gen as [|Gen IH]; intros Is; [done|].
  cbn [Impl.ISeq_Is]. rewrite IH, seqZ_S, <- app_assoc. done.
Qed.

Lemma ISeq_STN_floor (N : Z) (Gen : nat) (Is : list Z) (p : cptr) :
  Impl.ISeq_STN N Gen Is p = Impl.ISeq_STN N 0 (seqZ 0 (Z.of_nat Gen) ++ Is) p.
Proof. by rewrite ISeq_STN_Is, ISeq_Is_seqZ. Qed.

Lemma gather_take (p : cptr) (n : nat) :
  (n ≤ length p)%nat → mapM (subscript p) (seqZ 0 (Z.of_nat n)) = Some (take n p).
Proof.
  intros Hn. apply mapM_Some, Forall2_same_length_lookup_2.
  - rewrite length_seqZ, length_take_le by done. lia.
  - intros i x c [-> Hi]%lookup_seqZ Hc.
    rewrite lookup_take_lt in Hc by lia.
    rewrite Z.add_0_l, subscript_lookup. done.
Qed.

Lemma gather_outside (p : cptr) (n : Z) :
  Z.of_nat (length p) < n → mapM (subscript p) (seqZ 0 n) = None.
Proof.
  intros Hn. apply mapM_None, Exists_exists.
  exists (Z.of_nat (length p)). split.
  - apply elem_of_seqZ. lia.
  - rewrite subscript_lookup. by apply lookup_ge_None_2.
Qed.

Lemma CSW_init_exact (N : Z) (elems : list ascii) :
  Z.of_nat (length elems) = N →
  Impl.CSW_init N elems = Some {| Impl.CSW_N := N; Impl.val := elems |}.
Proof.
  intros HN. unfold Impl.CSW_init. rewrite decide_True by lia.
  replace (Z.to_nat N - length elems)%nat with 0%nat by lia.
  simpl. by rewrite app_nil_r.
Qed.

Lemma STN_copies (p : cptr) (N : nat) :
  (N ≤ length p)%nat → Z.of_nat N + 1 < 2 ^ 32 →
  Impl.ISeq_STN (Z.of_nat N) N [] p =
    Some {| Impl.CSW_N := Z.of_nat N + 1; Impl.val := take N p ++ [NUL] |}.
Proof.
  intros Hp HN. rewrite ISeq_STN_floor, app_nil_r. cbn [Impl.ISeq_STN].
  rewrite gather_take by done. cbn [mbind option_bind].
  rewrite u32_small by lia. apply CSW_init_exact.
  rewrite length_app, length_take_le by done. simpl. lia.
Qed.

Lemma STN_outside (p : cptr) (N : Z) :
  Z.of_nat (length p) < N → Impl.ISeq_STN N (Z.to_nat N) [] p = None.
Proof.
  intros HN. rewrite ISeq_STN_floor, app_nil_r, Z2Nat.id by lia.
  cbn [Impl.ISeq_STN]. by rewrite gather_outside.
Qed.

(** ** The procedures on their own *)

(** C2, at the input where it fails: the array ["vvoid"] holds the
    literal at index 1 and nowhere before, and the scan returns [-1]
    converted to [unsigned] instead of 1.  The first [v] sets the counter
    to 1, the second [v] resets it to 0 and is not looked at again. *)
Theorem CTFV_misses_void_after_v :
  void_at (chars "vvoid") 1 ∧ ¬ void_at (chars "vvoid") 0 ∧
  Impl.CTFV (chars "vvoid" ++ [NUL]) 0 0 = Some 4294967295.
Proof. split; [|split]; [reflexivity | discriminate | reflexivity]. Qed.

(** Where the scan does find the first run of the literal: where the
    counter reads 0 when the run begins. *)
Lemma void_scan_app (a b : list ascii) (m : Z) :
  0 ≤ m < 4 → void_scan a m = None →
  ∃ m', void_counter a m = Some m' ∧ 0 ≤ m' < 4 ∧
    void_scan (a ++ b) m = (λ k, length a + k)%nat <$> void_scan b m'.
Proof.
  revert m. induction a as [|c a IH]; intros m Hm Hscan.
  - exists m. split; [done|]. split; [done|].
    simpl app. by destruct (void_scan b m).
  - cbn [void_scan void_counter app] in *.
    rewrite is_four_false in * by lia.
    destruct (void_match_step m c) as (m1 & Hm1 & Hrange & _); [done|].
    rewrite Hm1 in *. cbn [mbind option_bind] in *.
    assert (m1 ≠ 4) as Hne.
    { intros ->. by destruct a. }
    destruct (void_scan a m1) as [k|] eqn:Hk; [done|].
    destruct (IH m1) as (m' & Hcount & Hm' & Happ); [lia|done|].
    exists m'. split; [done|]. split; [done|].
    rewrite Happ. by destruct (void_scan b m').
Qed.

Lemma void_scan_run (rest : list ascii) : void_scan (chars "void" ++ rest) 0 = Some 4%nat.
Proof. by destruct rest. Qed.

Lemma void_at_take (s : list ascii) (i j : nat) :
  (j + 4 ≤ i)%nat → void_at (take i s) j → void_at s j.
Proof.
  unfold void_at. intros Hj <-.
  rewrite (take_drop_commute s 4 j), (take_drop_commute (take i s) 4 j), take_take.
  do 2 f_equal. lia.
Qed.

Lemma CTFV_finds_run_at_counter_zero (s rest : list ascii) (i : nat) :
  NUL ∉ s → Z.of_nat (length s) < 2 ^ 32 →
  void_at s i → (∀ j, (j < i)%nat → ¬ void_at s j) →
  void_counter (take i s) 0 = Some 0 →
  Impl.CTFV (s ++ NUL :: rest) 0 0 = Some (Z.of_nat i).
Proof.
  intros Hs Hlen Hat Hfirst Hcount.
  assert (void_scan (take i s) 0 = None) as Hbefore.
  { destruct (void_scan (take i s) 0) as [k|] eqn:Hk; [|done].
    apply void_scan_occurs in Hk as [[Hk4 Hki] Hrun].
    rewrite length_take in Hki.
    apply void_at_take in Hrun; [|lia]. apply Hfirst in Hrun; [done|lia]. }
  destruct (void_scan_app (take i s) (drop i s) 0) as (m' & Hm' & _ & Hscan); [lia|done|].
  rewrite Hcount in Hm'. injection Hm' as <-.
  rewrite take_drop in Hscan.
  assert (length (take 4 (drop i s)) = 4%nat) as Hl by (unfold void_at in Hat; by rewrite Hat).
  rewrite length_take, length_drop in Hl.
  rewrite <- (take_drop 4 (drop i s)) in Hscan at 1.
  unfold void_at in Hat. rewrite Hat, void_scan_run in Hscan.
  rewrite CTFV_void_scan, Hscan by (done || lia).
  cbn [fmap option_fmap option_map]. rewrite length_take_le by lia.
  rewrite u32_small by lia. f_equal. lia.
Qed.

Example CTFV_finds_void_msvc :
  Impl.CTFV (msvc_signature ty_void ++ NUL :: []) 0 0 = Some (Z.of_nat 36).
Proof.
  apply CTFV_finds_run_at_counter_zero.
  - by_computation.
  - vm_compute. reflexivity.
  - reflexivity.
  - intros j Hj. unfold void_at.
    do 36 (destruct j as [|j]; [vm_compute; discriminate|]). lia.
  - reflexivity.
Qed.

(** C4: for a start offset and a length [N] within the signature array,
    the materializer yields a [CSW<N + 1>] whose array has [N + 1]
    elements, the first [N] being the elements [start .. start + N - 1] of
    the signature and the last one the terminator; the expansion reaches
    the specialisation for [Gen = 0] with the pack [0, 1, ..., N - 1]. *)
Theorem STN_materializes (sig : cptr) (start N : Z) :
  0 ≤ start → 0 ≤ N → start + N ≤ Z.of_nat (length sig) → N + 1 < 2 ^ 32 →
  ∃ p name,
    ptr_add sig start = Some p ∧
    Impl.ISeq_Is (Z.to_nat N) [] = seqZ 0 N ∧
    Impl.ISeq_STN N (Z.to_nat N) [] p = Impl.ISeq_STN N 0 (seqZ 0 N) p ∧
    Impl.ISeq_STN N (Z.to_nat N) [] p = Some name ∧
    Impl.CSW_N name = N + 1 ∧
    Z.of_nat (length (Impl.val name)) = N + 1 ∧
    take (Z.to_nat N) (Impl.val name) = take (Z.to_nat N) (drop (Z.to_nat start) sig) ∧
    (∀ i, 0 ≤ i < N → subscript (Impl.val name) i = subscript sig (start + i)) ∧
    subscript (Impl.val name) N = Some NUL.
Proof.
  intros Hs HN Hlen Hfit.
  set (n := Z.to_nat N). set (p := drop (Z.to_nat start) sig).
  assert (n ≤ length p)%nat as Hn by (subst n p; rewrite length_drop; lia).
  exists p, {| Impl.CSW_N := N + 1; Impl.val := take n p ++ [NUL] |}.
  assert (length (take n p) = n) as Htake by (by apply length_take_le).
  split; [|split; [|split; [|split; [|split; [|split; [|split; [|split]]]]]]].
  - unfold ptr_add. by rewrite decide_True by lia.
  - rewrite ISeq_Is_seqZ, app_nil_r. subst n. by rewrite Z2Nat.id.
  - rewrite ISeq_STN_floor, app_nil_r. subst n. by rewrite Z2Nat.id.
  - replace N with (Z.of_nat n) at 1 by lia.
    rewrite STN_copies by (done || lia). do 2 f_equal. lia.
  - done.
  - cbn [Impl.val]. rewrite length_app, Htake. simpl. lia.
  - cbn [Impl.val]. rewrite take_app_length' by done. done.
  - intros i Hi. cbn [Impl.val].
    replace i with (Z.of_nat (Z.to_nat i)) at 1 by lia.
    replace (start + i) with (Z.of_nat (Z.to_nat start + Z.to_nat i)) by lia.
    rewrite !subscript_lookup, lookup_app_l by lia.
    rewrite lookup_take_lt by lia. subst p. by rewrite lookup_drop.
  - cbn [Impl.val]. replace N with (Z.of_nat n) by lia.
    rewrite subscript_lookup, <- Htake at 1. by rewrite list_lookup_middle.
Qed.

Lemma STN_materializes_void :
  ∃ p name,
    ptr_add (Impl.FFN (C:=gcc) ty_void) 50 = Some p ∧
    Impl.ISeq_Is (Z.to_nat 4) [] = seqZ 0 4 ∧
    Impl.ISeq_STN 4 (Z.to_nat 4) [] p = Impl.ISeq_STN 4 0 (seqZ 0 4) p ∧
    Impl.ISeq_STN 4 (Z.to_nat 4) [] p = Some name ∧
    Impl.CSW_N name = 4 + 1 ∧
    Z.of_nat (length (Impl.val name)) = 4 + 1 ∧
    take (Z.to_nat 4) (Impl.val name) = take (Z.to_nat 4) (drop (Z.to_nat 50) (Impl.FFN (C:=gcc) ty_void)) ∧
    (∀ i, 0 ≤ i < 4 → subscript (Impl.val name) i = subscript (Impl.FFN (C:=gcc) ty_void) (50 + i)) ∧
    subscript (Impl.val name) 4 = Some NUL.
Proof.
  apply (STN_materializes (Impl.FFN (C:=gcc) ty_void) 50 4); [lia | lia | vm_compute; discriminate | lia].
Defined.

(** C8: the compile-time recursions end on their intended inputs.  On a
    null-terminated array [CTL] and [CTFV] yield a value, one character
    consumed per call and nothing read after the terminator: [CTL] returns
    the number of characters before it, [CTFV] what its match counter
    decides on those characters.  For every counter [Gen] the expansion of
    [ISeq] arrives, one index per step, at the specialisation for
    [Gen = 0]. *)
Theorem compile_time_recursion_terminates :
  (∀ s rest : list ascii, NUL ∉ s →
     Impl.CTL (s ++ NUL :: rest) 0 = Some (u32 (Z.of_nat (length s)))) ∧
  (∀ s rest : list ascii, NUL ∉ s →
     ∃ v, Impl.CTFV (s ++ NUL :: rest) 0 0 = Some v ∧
          Impl.CTFV (s ++ [NUL]) 0 0 = Some v) ∧
  (∀ (N : Z) (Gen : nat) (Is : list Z) (p : cptr),
     Impl.ISeq_Is Gen Is = seqZ 0 (Z.of_nat Gen) ++ Is ∧
     Impl.ISeq_STN N Gen Is p = Impl.ISeq_STN N 0 (seqZ 0 (Z.of_nat Gen) ++ Is) p).
Proof.
  split; [|split].
  - intros s rest Hs. by rewrite CTL_counts.
  - intros s rest Hs. eexists.
    rewrite !CTFV_void_scan by (done || lia). done.
  - intros N Gen Is p. split; [apply ISeq_Is_seqZ | apply ISeq_STN_floor].
Qed.

Lemma compile_time_recursion_terminates_gcc :
  Impl.CTL (gcc_signature ty_classy ++ NUL :: chars "next literal") 0 = Some (u32 57) ∧
  (∃ v, Impl.CTFV (gcc_signature ty_void ++ NUL :: chars "next literal") 0 0 = Some v ∧
        Impl.CTFV (gcc_signature ty_void ++ [NUL]) 0 0 = Some v) ∧
  (Impl.ISeq_Is 6 [] = seqZ 0 6 ++ [] ∧
   Impl.ISeq_STN 6 6 [] (chars "classy]") = Impl.ISeq_STN 6 0 (seqZ 0 6 ++ []) (chars "classy]")).
Proof.
  destruct compile_time_recursion_terminates as (Hctl & Hctfv & Hiseq).
  split; [|split].
  - apply (Hctl (gcc_signature ty_classy)). by_computation.
  - apply (Hctfv (gcc_signature ty_void)). by_computation.
  - apply (Hiseq 6 6%nat []).
Defined.

(** C9: on a null-terminated string short enough to be indexed by an
    [unsigned], a result [v] of [CTFV] other than [-1] converted to
    [unsigned] is the index of a run of the literal: the characters at
    [v], [v + 1], [v + 2] and [v + 3] are [v], [o], [i] and [d]. *)
Theorem CTFV_match_sound (s rest : list ascii) (v : Z) :
  NUL ∉ s → Z.of_nat (length s) < 2 ^ 32 →
  Impl.CTFV (s ++ NUL :: rest) 0 0 = Some v → v ≠ u32 (-1) →
  subscript (s ++ NUL :: rest) v = Some "v"%char ∧
  subscript (s ++ NUL :: rest) (v + 1) = Some "o"%char ∧
  subscript (s ++ NUL :: rest) (v + 2) = Some "i"%char ∧
  subscript (s ++ NUL :: rest) (v + 3) = Some "d"%char.
Proof.
  intros Hs Hlen Hv Hfound.
  rewrite CTFV_void_scan in Hv by (done || lia).
  destruct (void_scan s 0) as [k|] eqn:Hk; injection Hv as <-; [|done].
  apply void_scan_occurs in Hk as [Hk Hat].
  apply void_at_lookup in Hat as (H0 & H1 & H2 & H3).
  rewrite u32_small by lia.
  replace (0 + Z.of_nat k - 4) with (Z.of_nat (k - 4)) by lia.
  replace (Z.of_nat (k - 4) + 1) with (Z.of_nat (k - 4 + 1)) by lia.
  replace (Z.of_nat (k - 4) + 2) with (Z.of_nat (k - 4 + 2)) by lia.
  replace (Z.of_nat (k - 4) + 3) with (Z.of_nat (k - 4 + 3)) by lia.
  rewrite !subscript_lookup, !lookup_app_l by lia. done.
Qed.

Lemma CTFV_match_sound_msvc :
  subscript (msvc_signature ty_void ++ NUL :: []) 36 = Some "v"%char ∧
  subscript (msvc_signature ty_void ++ NUL :: []) (36 + 1) = Some "o"%char ∧
  subscript (msvc_signature ty_void ++ NUL :: []) (36 + 2) = Some "i"%char ∧
  subscript (msvc_signature ty_void ++ NUL :: []) (36 + 3) = Some "d"%char.
Proof.
  apply (CTFV_match_sound (msvc_signature ty_void) [] 36).
  - by_computation.
  - vm_compute. reflexivity.
  - vm_compute. reflexivity.
  - vm_compute. discriminate.
Defined.

(** C10: on a null-terminated string on which the match counter of
    [CTFV] never reads 4, [CTFV] returns [-1] converted to [unsigned],
    that is [2^32 - 1]: a value of its return type like any other. *)
Theorem CTFV_not_found_value (s rest : list ascii) :
  NUL ∉ s → void_scan s 0 = None →
  Impl.CTFV (s ++ NUL :: rest) 0 0 = Some (u32 (-1)) ∧
  u32 (-1) = 2 ^ 32 - 1 ∧ 0 ≤ u32 (-1) < 2 ^ 32.
Proof.
  intros Hs Hscan. rewrite CTFV_void_scan, Hscan by (done || lia).
  split; [done|]. split; [done|]. apply u32_range.
Qed.

Lemma CTFV_not_found_value_opaque :
  Impl.CTFV (opaque_signature ty_void ++ NUL :: []) 0 0 = Some (u32 (-1)) ∧
  u32 (-1) = 2 ^ 32 - 1 ∧ 0 ≤ u32 (-1) < 2 ^ 32.
Proof.
  apply (CTFV_not_found_value (opaque_signature ty_void) []).
  - by_computation.
  - vm_compute. reflexivity.
Defined.

(** ** Calibration and the name records *)

Lemma null_terminated_split (p : cptr) :
  NUL ∈ p → ∃ s rest, p = s ++ NUL :: rest ∧ NUL ∉ s.
Proof. apply list_elem_of_split_l. Qed.

Lemma void_at_split (sig : list ascii) (i : nat) :
  void_at (sig ++ [NUL]) i →
  ∃ pre s rest,
    sig ++ [NUL] = pre ++ chars "void" ++ s ++ NUL :: rest ∧ length pre = i ∧ NUL ∉ s.
Proof.
  unfold void_at. intros Hat.
  set (l := sig ++ [NUL]) in *.
  assert (length (take 4 (drop i l)) = 4%nat) as Hlen by (by rewrite Hat).
  rewrite length_take, length_drop in Hlen.
  assert (length (take i l) = i) as Hpre by (apply length_take_le; lia).
  assert (l = take i l ++ chars "void" ++ drop 4 (drop i l)) as Hl.
  { rewrite <- Hat, take_drop, take_drop. done. }
  assert (last l = Some NUL) as Hlast by apply last_snoc.
  revert Hl Hpre Hlast. generalize (take i l) (drop 4 (drop i l)).
  intros pre post -> Hpre Hlast.
  assert (NUL ∈ post) as Hin.
  { destruct post as [|c post].
    - change (chars "void") with (chars "voi" ++ ["d"%char]) in Hlast.
      rewrite app_nil_r, app_assoc, last_snoc in Hlast. discriminate.
    - rewrite !last_app in Hlast.
      destruct (last (c :: post)) as [x|] eqn:Hx; [|done].
      injection Hlast as ->.
      apply last_Some in Hx as [post' ->].
      apply elem_of_app. right. by apply list_elem_of_singleton. }
  apply null_terminated_split in Hin as (s & rest & -> & Hs).
  by exists pre, s, rest.
Qed.

Section Calibration.
Context {type : Type} {C : Compiler type}.

Lemma s_OffsetStart_range (st : Z) : Impl.s_OffsetStart = Some st → 0 ≤ st < 2 ^ 32.
Proof. apply CTFV_range. Qed.

Lemma s_OffsetREnd_of (pre s rest : list ascii) :
  Impl.FFN void = pre ++ chars "void" ++ s ++ NUL :: rest → NUL ∉ s →
  Impl.s_OffsetStart = Some (Z.of_nat (length pre)) →
  Impl.s_OffsetREnd = Some (u32 (Z.of_nat (length s))).
Proof.
  intros Hsig Hs Hst. unfold Impl.s_OffsetREnd.
  rewrite Hst. cbn [mbind option_bind].
  rewrite Hsig, ptr_add_app. cbn [mbind option_bind].
  change 4 with (Z.of_nat (length (chars "void"))).
  rewrite ptr_add_app. cbn [mbind option_bind].
  by rewrite CTL_counts.
Qed.

Lemma s_Len_of (T : type) (a w rest : list ascii) (re : Z) :
  Impl.s_OffsetStart = Some (Z.of_nat (length a)) →
  Impl.s_OffsetREnd = Some re →
  Impl.FFN T = a ++ w ++ NUL :: rest → NUL ∉ w →
  Impl.s_Len T = Some (u32 (u32 (Z.of_nat (length w)) - re)).
Proof.
  intros Hst Hre Hsig Hw. unfold Impl.s_Len.
  rewrite Hst. cbn [mbind option_bind].
  rewrite Hsig, ptr_add_app. cbn [mbind option_bind].
  rewrite CTL_counts by done. cbn [mbind option_bind].
  rewrite Hre. done.
Qed.

Lemma s_Str_of (T : type) (a q : list ascii) (N : nat) :
  Impl.s_Len T = Some (Z.of_nat N) →
  Impl.s_OffsetStart = Some (Z.of_nat (length a)) →
  Impl.FFN T = a ++ q → (N ≤ length q)%nat → Z.of_nat N + 1 < 2 ^ 32 →
  Impl.s_Str T = Some {| Impl.CSW_N := Z.of_nat N + 1; Impl.val := take N q ++ [NUL] |}.
Proof.
  intros Hlen Hst Hsig HN Hfit. unfold Impl.s_Str.
  rewrite Hlen. cbn [mbind option_bind].
  rewrite Hst. cbn [mbind option_bind].
  rewrite Hsig, ptr_add_app. cbn [mbind option_bind].
  rewrite Nat2Z.id. by apply STN_copies.
Qed.

Lemma s_OffsetREnd_range (re : Z) : Impl.s_OffsetREnd = Some re → 0 ≤ re < 2 ^ 32.
Proof.
  unfold Impl.s_OffsetREnd. intros Hre.
  destruct Impl.s_OffsetStart as [st|]; [|done]. cbn [mbind option_bind] in Hre.
  destruct (ptr_add (Impl.FFN void) st) as [p|]; [|done]. cbn [mbind option_bind] in Hre.
  destruct (ptr_add p 4) as [p4|]; [|done]. cbn [mbind option_bind] in Hre.
  by apply CTL_range in Hre.
Qed.

(** The length of a name whose signature reaches the start offset. *)
Lemma s_Len_plain (T : type) (st re : Z) :
  Impl.s_OffsetStart = Some st → Impl.s_OffsetREnd = Some re →
  plain_signature T → 0 ≤ st ≤ Z.of_nat (length (signature T)) →
  Impl.s_Len T = Some (u32 (Z.of_nat (length (signature T)) - st - re)).
Proof.
  intros Hst Hre [Hnul Hfit] Hle.
  replace st with (Z.of_nat (length (take (Z.to_nat st) (signature T)))) in Hst
    by (rewrite length_take_le; lia).
  rewrite (s_Len_of T _ (drop (Z.to_nat st) (signature T)) [] re Hst Hre).
  - unfold u32. rewrite Zminus_mod_idemp_l, length_drop. do 2 f_equal. lia.
  - unfold Impl.FFN. by rewrite app_assoc, take_drop.
  - intros Hin. apply Hnul. rewrite <- (take_drop (Z.to_nat st) (signature T)).
    apply elem_of_app. by right.
Qed.

Lemma s_Len_defined (T : type) (st n : Z) :
  Impl.s_OffsetStart = Some st → Impl.s_Len T = Some n →
  st ≤ Z.of_nat (length (signature T)).
Proof.
  intros Hst. unfold Impl.s_Len. rewrite Hst. cbn [mbind option_bind].
  unfold ptr_add, Impl.FFN. rewrite length_app. simpl.
  destruct (decide (0 ≤ st ≤ Z.of_nat (length (signature T) + 1))) as [Hle|]; [|done].
  cbn [mbind option_bind].
  destruct (decide (st = Z.of_nat (length (signature T) + 1))) as [->|]; [|lia].
  rewrite Nat2Z.id, drop_ge by (rewrite length_app; simpl; lia). done.
Qed.

Lemma s_OffsetREnd_below (re : Z) :
  Impl.s_OffsetREnd = Some re → re < Z.of_nat (length (Impl.FFN void)).
Proof.
  unfold Impl.s_OffsetREnd, ptr_add. intros Hre.
  destruct Impl.s_OffsetStart as [st|]; [|done]. cbn [mbind option_bind] in Hre.
  destruct (decide (0 ≤ st ≤ _)); [|done]. cbn [mbind option_bind] in Hre.
  destruct (decide (0 ≤ 4 ≤ _)); [|done]. cbn [mbind option_bind] in Hre.
  apply CTL_below in Hre; [|done]. rewrite !length_drop in Hre. lia.
Qed.

Lemma GetName_None (T : type) : Impl.s_Len T = None → GetName T = None.
Proof. intros Hlen. unfold GetName, Impl.s_Str. by rewrite Hlen. Qed.

Lemma GetName_of (T : type) (name : Impl.CSW) :
  Impl.s_Str T = Some name →
  GetName T = Some {| storage := TNH_s_Str T; target := Impl.val name |}.
Proof. intros Hname. unfold GetName. by rewrite Hname. Qed.

End Calibration.

(** C1: when the signature of [void] holds the literal at the calibrated
    start offset, [GetName<void>()] refers to the array of [TNH<void>]
    with the five elements [v], [o], [i], [d] and the terminator: its
    length without the terminator is 4. *)
Theorem GetName_void {type : Type} {C : Compiler type} (st : Z) :
  Impl.s_OffsetStart = Some st →
  void_at (Impl.FFN void) (Z.to_nat st) →
  Impl.s_Len void = Some 4 ∧
  GetName void = Some {| storage := TNH_s_Str void; target := chars "void" ++ [NUL] |} ∧
  c_str (chars "void" ++ [NUL]) = chars "void".
Proof.
  intros Hst Hat.
  pose proof (s_OffsetStart_range _ Hst) as Hrange.
  apply void_at_split in Hat as (pre & s & rest & Hsig & Hpre & Hs).
  assert (st = Z.of_nat (length pre)) as -> by lia.
  pose proof (s_OffsetREnd_of pre s rest Hsig Hs Hst) as Hre.
  assert (NUL ∉ chars "void" ++ s) as Hw.
  { apply not_elem_of_app. split; [by_computation | done]. }
  assert (Impl.s_Len void = Some 4) as Hlen.
  { rewrite (s_Len_of void pre (chars "void" ++ s) rest _ Hst Hre)
      by (by rewrite <- ?app_assoc).
    rewrite u32_sub_sub, length_app. f_equal.
    replace (Z.of_nat (length (chars "void") + length s) - Z.of_nat (length s)) with 4
      by (simpl; lia).
    done. }
  split; [done|]. split; [|done].
  apply (GetName_of void {| Impl.CSW_N := 5; Impl.val := chars "void" ++ [NUL] |}).
  by rewrite (s_Str_of void pre (chars "void" ++ s ++ NUL :: rest) 4 Hlen Hst Hsig)
    by (simpl; lia).
Qed.

Lemma GetName_void_gcc :
  Impl.s_Len (C:=gcc) ty_void = Some 4 ∧
  GetName (C:=gcc) ty_void = Some {| storage := TNH_s_Str ty_void; target := chars "void" ++ [NUL] |} ∧
  c_str (chars "void" ++ [NUL]) = chars "void".
Proof.
  apply (GetName_void (C:=gcc) 50).
  - vm_compute. reflexivity.
  - vm_compute. reflexivity.
Defined.

(** C3: for every type [T] whose signature is a plain string, the length
    [s_Len] is defined exactly when the start offset lies within the
    signature, and is then the length of the signature, as counted by
    [CTL], minus the start offset minus the suffix length, in [unsigned]
    arithmetic.  When that difference is not negative, the array of
    [GetName<T>()] holds the characters of the signature from the start
    offset up to the suffix, followed by the terminator. *)
Theorem s_Len_is_span {type : Type} {C : Compiler type} (T : type) (st re : Z) :
  Impl.s_OffsetStart = Some st → Impl.s_OffsetREnd = Some re → plain_signature T →
  let L := Z.of_nat (length (signature T)) in
  Impl.CTL (Impl.FFN T) 0 = Some L ∧
  (∀ n, Impl.s_Len T = Some n ↔ st ≤ L ∧ n = u32 (L - st - re)) ∧
  (st + re ≤ L →
     Impl.s_Len T = Some (L - st - re) ∧
     GetName T = Some {| storage := TNH_s_Str T;
                         target := drop (Z.to_nat st) (take (Z.to_nat (L - re)) (signature T))
                                     ++ [NUL] |}).
Proof.
  intros Hst Hre Hplain L.
  pose proof (s_OffsetStart_range _ Hst) as Hst_range.
  pose proof (s_OffsetREnd_range _ Hre) as Hre_range.
  pose proof Hplain as [Hnul Hfit].
  unfold Impl.FFN in Hfit. rewrite length_app in Hfit. simpl in Hfit.
  split; [|split].
  - unfold Impl.FFN. rewrite CTL_counts by (done || lia).
    rewrite u32_small by lia. done.
  - intros n. split.
    + intros Hn. pose proof (s_Len_defined T st n Hst Hn) as Hle.
      rewrite (s_Len_plain T st re) in Hn by (done || lia).
      injection Hn as <-. done.
    + intros [Hle ->]. apply s_Len_plain; done || lia.
  - intros Hspan.
    assert (Impl.s_Len T = Some (L - st - re)) as Hlen.
    { rewrite (s_Len_plain T st re) by (done || lia).
      rewrite u32_small by lia. done. }
    split; [done|].
    set (i := Z.to_nat st). set (N := Z.to_nat (L - st - re)).
    assert (length (take i (signature T)) = i) as Hi by (apply length_take_le; lia).
    assert (Impl.s_Str T = Some {| Impl.CSW_N := Z.of_nat N + 1;
              Impl.val := take N (drop i (signature T) ++ [NUL]) ++ [NUL] |}) as Hstr.
    { apply (s_Str_of T (take i (signature T))).
      - rewrite Hlen. f_equal. lia.
      - rewrite Hst. f_equal. lia.
      - unfold Impl.FFN. by rewrite app_assoc, take_drop.
      - rewrite length_app, length_drop. simpl. lia.
      - lia. }
    rewrite (GetName_of T _ Hstr). cbn [Impl.val]. do 3 f_equal.
    rewrite take_app_le by (rewrite length_drop; lia).
    rewrite take_drop_commute. do 2 f_equal. lia.
Qed.

Lemma s_Len_is_span_msvc :
  Impl.CTL (Impl.FFN (C:=msvc) ty_structy_classy) 0 = Some 71 ∧
  (∀ n, Impl.s_Len (C:=msvc) ty_structy_classy = Some n ↔ 36 ≤ 71 ∧ n = u32 (71 - 36 - 7)) ∧
  (36 + 7 ≤ 71 →
     Impl.s_Len (C:=msvc) ty_structy_classy = Some (71 - 36 - 7) ∧
     GetName (C:=msvc) ty_structy_classy =
       Some {| storage := TNH_s_Str ty_structy_classy;
               target := drop (Z.to_nat 36) (take (Z.to_nat (71 - 7)) (msvc_signature ty_structy_classy))
                           ++ [NUL] |}).
Proof.
  apply (s_Len_is_span (C:=msvc) ty_structy_classy 36 7).
  - vm_compute. reflexivity.
  - vm_compute. reflexivity.
  - split; [by_computation | vm_compute; reflexivity].
Defined.

(** C5, where the claim fails: a signature of [void] without the literal
    makes [s_OffsetStart] the value [2^32 - 1], and a type whose computed
    length is negative, here [4 - 13], gets the length [2^32 - 9].  Both
    are values of constant expressions; neither evaluation fails. *)
Lemma failure_is_not_reported_where_it_occurs :
  void_scan (opaque_signature ty_void) 0 = None ∧
  Impl.s_OffsetStart (C:=opaque_compiler) = Some 4294967295 ∧
  Impl.s_OffsetStart (C:=uneven_compiler) = Some 4 ∧
  Impl.s_OffsetREnd (C:=uneven_compiler) = Some 13 ∧
  Impl.CTL (drop 4 (Impl.FFN (C:=uneven_compiler) ty_int)) 0 = Some 4 ∧
  Impl.s_Len (C:=uneven_compiler) ty_int = Some 4294967287.
Proof. repeat split; vm_compute; reflexivity. Qed.

(** C5, amended: the header reports neither failure itself.  When the
    match counter never reads 4 on the signature of [void],
    [s_OffsetStart] is [-1] converted to [unsigned]; the evaluation of
    [s_OffsetREnd] then takes the pointer out of the signature array, so
    that no length and no name is a constant expression for any type.
    When the computed length of a type is negative, [s_Len], where it
    is evaluated, wraps around to the length plus [2^32], and the
    evaluation of [s_Str] reads outside the signature array: no name is
    produced for that type. *)
Theorem failures_end_constant_evaluation {type : Type} {C : Compiler type} :
  plain_signature void →
  (void_scan (signature void) 0 = None →
     Impl.s_OffsetStart = Some (u32 (-1)) ∧ Impl.s_OffsetREnd = None ∧
     ∀ T, Impl.s_Len T = None ∧ GetName T = None) ∧
  (∀ (T : type) (st re : Z),
     Impl.s_OffsetStart = Some st → Impl.s_OffsetREnd = Some re →
     plain_signature T →
     Z.of_nat (length (signature T)) - st - re < 0 →
     (st ≤ Z.of_nat (length (signature T)) →
        Impl.s_Len T = Some (Z.of_nat (length (signature T)) - st - re + 2 ^ 32)) ∧
     Impl.s_Str T = None ∧ GetName T = None).
Proof.
  intros [Hnul Hfit]. split.
  - intros Hscan.
    assert (Impl.s_OffsetStart = Some (u32 (-1))) as Hst.
    { unfold Impl.s_OffsetStart, Impl.FFN.
      rewrite CTFV_void_scan, Hscan by (done || lia). done. }
    assert (Impl.s_OffsetREnd = None) as Hre.
    { unfold Impl.s_OffsetREnd. rewrite Hst. cbn [mbind option_bind].
      destruct (ptr_add (Impl.FFN void) (u32 (-1))) as [p|] eqn:Hp; [|done].
      cbn [mbind option_bind].
      rewrite ptr_add_None; [done|].
      unfold ptr_add in Hp. case_decide as Hle; [|done]. injection Hp as <-.
      rewrite length_drop. rewrite u32_minus_one in *. lia. }
    split; [done|]. split; [done|].
    intros T.
    assert (Impl.s_Len T = None) as Hlen.
    { unfold Impl.s_Len. rewrite Hst, Hre. cbn [mbind option_bind].
      destruct (ptr_add _ _) as [p|]; [|done]. cbn [mbind option_bind].
      by destruct (Impl.CTL p 0). }
    split; [done|]. by apply GetName_None.
  - intros T st re Hst Hre HT Hneg.
    pose proof (s_OffsetStart_range _ Hst) as Hst_range.
    pose proof (s_OffsetREnd_range _ Hre) as Hre_range.
    pose proof (s_OffsetREnd_below _ Hre) as Hre_below.
    set (L := Z.of_nat (length (signature T))) in *.
    destruct (decide (st ≤ L)) as [Hle|Hgt].
    + assert (Impl.s_Len T = Some (L - st - re + 2 ^ 32)) as Hlen.
      { rewrite (s_Len_plain T st re) by (done || lia).
        rewrite u32_borrow by lia. done. }
      assert (Impl.s_Str T = None) as Hstr.
      { unfold Impl.s_Str. rewrite Hlen, Hst. cbn [mbind option_bind].
        unfold ptr_add. case_decide; [|done].
        cbn [mbind option_bind]. apply STN_outside.
        rewrite length_drop. unfold Impl.FFN. rewrite length_app. simpl.
        fold L. lia. }
      split; [done|]. split; [done|].
      unfold GetName. by rewrite Hstr.
    + assert (Impl.s_Len T = None) as Hlen.
      { destruct (Impl.s_Len T) as [n|] eqn:Hn; [|done].
        apply (s_Len_defined T st n Hst) in Hn. fold L in Hn. lia. }
      split; [lia|]. split; [|by apply GetName_None].
      unfold Impl.s_Str. by rewrite Hlen.
Qed.

Lemma failures_end_constant_evaluation_samples :
  (Impl.s_OffsetStart (C:=opaque_compiler) = Some (u32 (-1)) ∧
   Impl.s_OffsetREnd (C:=opaque_compiler) = None ∧
   ∀ T, Impl.s_Len (C:=opaque_compiler) T = None ∧ GetName (C:=opaque_compiler) T = None) ∧
  ((4 ≤ Z.of_nat (length (uneven_signature ty_int)) →
      Impl.s_Len (C:=uneven_compiler) ty_int =
        Some (Z.of_nat (length (uneven_signature ty_int)) - 4 - 13 + 2 ^ 32)) ∧
   Impl.s_Str (C:=uneven_compiler) ty_int = None ∧
   GetName (C:=uneven_compiler) ty_int = None).
Proof.
  split.
  - apply (failures_end_constant_evaluation (C:=opaque_compiler)).
    + split; [by_computation | vm_compute; reflexivity].
    + vm_compute. reflexivity.
  - apply (failures_end_constant_evaluation (C:=uneven_compiler)).
    + split; [by_computation | vm_compute; reflexivity].
    + vm_compute. reflexivity.
    + vm_compute. reflexivity.
    + split; [by_computation | vm_compute; reflexivity].
    + vm_compute. reflexivity.
Defined.

(** ** Names of distinct types *)

(** With the same text around every spelling and the start offset right
    after the common prefix, the name is the spelling. *)
Lemma GetName_spelling {type : Type} {C : Compiler type}
    (prefix suffix : list ascii) (spelling : type → list ascii) (T : type) :
  uniform_boilerplate prefix suffix spelling →
  Impl.s_OffsetStart = Some (Z.of_nat (length prefix)) →
  plain_signature void → plain_signature T →
  GetName T = Some {| storage := TNH_s_Str T; target := spelling T ++ [NUL] |} ∧
  c_str (spelling T ++ [NUL]) = spelling T.
Proof.
  intros [Hshape Hvoid] Hst [Hnul_void Hfit_void] [Hnul Hfit].
  unfold Impl.FFN in Hfit_void, Hfit. rewrite length_app in Hfit_void, Hfit.
  rewrite Hshape in Hnul_void, Hfit_void, Hnul, Hfit.
  rewrite !length_app in Hfit_void, Hfit. simpl in Hfit_void, Hfit.
  apply not_elem_of_app in Hnul_void as [_ [_ Hsuffix]%not_elem_of_app].
  apply not_elem_of_app in Hnul as [_ Hinner]. pose proof Hinner as [Hsp _]%not_elem_of_app.
  assert (Impl.s_OffsetREnd = Some (Z.of_nat (length suffix))) as Hre.
  { rewrite (s_OffsetREnd_of prefix suffix []);
      [| by unfold Impl.FFN; rewrite Hshape, Hvoid, <- !app_assoc | done..].
    rewrite u32_small by lia. done. }
  assert (Impl.s_Len T = Some (Z.of_nat (length (spelling T)))) as Hlen.
  { rewrite (s_Len_of T prefix (spelling T ++ suffix) [] _ Hst Hre);
      [| by unfold Impl.FFN; rewrite Hshape, <- !app_assoc | done].
    rewrite length_app.
    rewrite (u32_small (Z.of_nat (length (spelling T) + length suffix))) by lia.
    rewrite u32_small by lia.
    f_equal. lia. }
  split; [|by apply c_str_app].
  rewrite (GetName_of T {| Impl.CSW_N := Z.of_nat (length (spelling T)) + 1;
                           Impl.val := spelling T ++ [NUL] |}); [done|].
  rewrite (s_Str_of T prefix (spelling T ++ suffix ++ [NUL]) _ Hlen Hst).
  - by rewrite take_app_length.
  - unfold Impl.FFN. by rewrite Hshape, <- !app_assoc.
  - rewrite length_app. lia.
  - lia.
Qed.

(** C6: when the signatures differ by the spelling of the type only and
    the start offset is where the spelling begins, two types with
    different spellings have names with different characters up to the
    terminator. *)
Theorem distinct_spellings_distinct_names {type : Type} {C : Compiler type}
    (prefix suffix : list ascii) (spelling : type → list ascii) (A B : type) :
  uniform_boilerplate prefix suffix spelling →
  Impl.s_OffsetStart = Some (Z.of_nat (length prefix)) →
  plain_signature void → plain_signature A → plain_signature B →
  spelling A ≠ spelling B →
  ∃ a b, GetName A = Some a ∧ GetName B = Some b ∧
    c_str (target a) = spelling A ∧ c_str (target b) = spelling B ∧
    c_str (target a) ≠ c_str (target b).
Proof.
  intros Hshape Hst Hvoid HA HB Hne.
  destruct (GetName_spelling prefix suffix spelling A) as [Ha Hca]; [done..|].
  destruct (GetName_spelling prefix suffix spelling B) as [Hb Hcb]; [done..|].
  eexists _, _. split; [exact Ha|]. split; [exact Hb|].
  cbn [target]. rewrite Hca, Hcb. done.
Qed.

Lemma distinct_spellings_distinct_names_gcc :
  ∃ a b, GetName (C:=gcc) ty_classy = Some a ∧ GetName (C:=gcc) ty_structy_classy = Some b ∧
    c_str (target a) = chars "classy" ∧ c_str (target b) = chars "structy<classy>" ∧
    c_str (target a) ≠ c_str (target b).
Proof.
  apply (distinct_spellings_distinct_names (C:=gcc)
           (chars "constexpr const char* CTNR::Impl::FFN() [with T = ") (chars "]")
           (λ T, chars (gcc_spelling T)) ty_classy ty_structy_classy).
  - split; reflexivity.
  - vm_compute. reflexivity.
  - split; [by_computation | vm_compute; reflexivity].
  - split; [by_computation | vm_compute; reflexivity].
  - split; [by_computation | vm_compute; reflexivity].
  - vm_compute. discriminate.
Defined.

(** ** Stability *)

(** C7: [GetName<T>()] is a function of the signatures of [void] and of
    [T] alone.  Two evaluations under translation environments that agree
    on these two signatures compute the same pair of offsets and either
    both fail or both return a reference to the array of [TNH<T>::s_Str]
    with the same characters; within one environment the storage referred
    to is the same exactly when the type is. *)
Theorem GetName_stable {type : Type} (C1 C2 : Compiler type) (T : type) :
  @void type C1 = @void type C2 →
  @signature type C1 (@void type C1) = @signature type C2 (@void type C2) →
  @signature type C1 T = @signature type C2 T →
  @Impl.s_OffsetStart type C1 = @Impl.s_OffsetStart type C2 ∧
  @Impl.s_OffsetREnd type C1 = @Impl.s_OffsetREnd type C2 ∧
  @GetName type C1 T = @GetName type C2 T ∧
  (∀ r1 r2, @GetName type C1 T = Some r1 → @GetName type C2 T = Some r2 →
     storage r1 = TNH_s_Str T ∧ storage r1 = storage r2 ∧ target r1 = target r2) ∧
  (∀ U r ru, @GetName type C1 T = Some r → @GetName type C1 U = Some ru →
     storage r = storage ru ↔ T = U).
Proof.
  intros Hvoid Hsig_void Hsig.
  assert (@Impl.s_OffsetStart type C1 = @Impl.s_OffsetStart type C2) as Hst.
  { unfold Impl.s_OffsetStart, Impl.FFN. by rewrite Hsig_void. }
  assert (@Impl.s_OffsetREnd type C1 = @Impl.s_OffsetREnd type C2) as Hre.
  { unfold Impl.s_OffsetREnd, Impl.FFN. by rewrite Hst, Hsig_void. }
  assert (@Impl.s_Len type C1 T = @Impl.s_Len type C2 T) as Hlen.
  { unfold Impl.s_Len, Impl.FFN. by rewrite Hst, Hre, Hsig. }
  assert (@GetName type C1 T = @GetName type C2 T) as Hname.
  { unfold GetName, Impl.s_Str, Impl.FFN. by rewrite Hlen, Hst, Hsig. }
  split; [done|]. split; [done|]. split; [done|]. split.
  - intros r1 r2 H1 H2. rewrite Hname, H2 in H1. injection H1 as <-.
    unfold GetName in H2. destruct (Impl.s_Str T); [|done].
    injection H2 as <-. done.
  - intros U r ru Hr Hru. unfold GetName in Hr, Hru.
    destruct (Impl.s_Str T); [|done]. destruct (Impl.s_Str U); [|done].
    injection Hr as <-. injection Hru as <-. cbn [storage].
    split; [by intros [= ->] | by intros ->].
Qed.

Lemma GetName_stable_gcc :
  @Impl.s_OffsetStart sample_type gcc = @Impl.s_OffsetStart sample_type gcc ∧
  @Impl.s_OffsetREnd sample_type gcc = @Impl.s_OffsetREnd sample_type gcc ∧
  @GetName sample_type gcc ty_classy = @GetName sample_type gcc ty_classy ∧
  (∀ r1 r2, @GetName sample_type gcc ty_classy = Some r1 →
     @GetName sample_type gcc ty_classy = Some r2 →
     storage r1 = TNH_s_Str ty_classy ∧ storage r1 = storage r2 ∧ target r1 = target r2) ∧
  (∀ U r ru, @GetName sample_type gcc ty_classy = Some r → @GetName sample_type gcc U = Some ru →
     storage r = storage ru ↔ ty_classy = U).
Proof.
  apply (GetName_stable gcc gcc ty_classy); reflexivity.
Defined.

(** * Further properties of the procedures *)

(** ** [CTL]: the accumulator and the pointer *)

Lemma u32_shift (x y k : Z) : x = y + k * 2 ^ 32 → u32 x = u32 y.
Proof. intros ->. unfold u32. apply Z.mod_add. lia. Qed.

Lemma CTL_retail (p : cptr) (t1 t2 n : Z) :
  0 ≤ t1 < 2 ^ 32 → 0 ≤ t2 < 2 ^ 32 →
  Impl.CTL p t1 = Some n → Impl.CTL p t2 = Some (u32 (n + t2 - t1)).
Proof.
  revert t1 t2. induction p as [|c p IH]; intros t1 t2 H1 H2; simpl; [done|].
  destruct (Ascii.eqb c NUL).
  - intros [= <-]. f_equal. rewrite u32_small by lia. lia.
  - intros Hn. rewrite (IH (u32 (t1 + 1)) (u32 (t2 + 1)) (u32_range _) (u32_range _) Hn).
    f_equal. unfold u32 at 2 3.
    rewrite (Z.mod_eq (t2 + 1)), (Z.mod_eq (t1 + 1)) by lia.
    apply (u32_shift _ _ ((t1 + 1) / 2 ^ 32 - (t2 + 1) / 2 ^ 32)). lia.
Qed.

Lemma NUL_not_in_drop (s : list ascii) (k : nat) : NUL ∉ s → NUL ∉ drop k s.
Proof. intros Hs Hin. apply Hs. by apply (subseteq_drop k s). Qed.

Lemma NUL_not_in_take (s : list ascii) (k : nat) : NUL ∉ s → NUL ∉ take k s.
Proof. intros Hs Hin. apply Hs. by apply (subseteq_take k s). Qed.

(** X1: the second argument of [CTL] is an offset added to the count: a
    call with [tail] returns [tail] plus what the call with the default
    [tail = 0] returns, in [unsigned] arithmetic. *)
Theorem CTL_tail_is_an_offset (p : cptr) (tail n : Z) :
  0 ≤ tail < 2 ^ 32 →
  Impl.CTL p 0 = Some n → Impl.CTL p tail = Some (u32 (tail + n)).
Proof.
  intros Ht Hn. rewrite (CTL_retail p 0 tail n) by (done || lia).
  do 2 f_equal. lia.
Qed.

Lemma CTL_tail_is_an_offset_gcc :
  Impl.CTL (Impl.FFN (C:=gcc) ty_classy) 4294967290 = Some (u32 (4294967290 + 57)).
Proof.
  apply (CTL_tail_is_an_offset (Impl.FFN (C:=gcc) ty_classy) 4294967290 57).
  - lia.
  - vm_compute. reflexivity.
Defined.

(** X2: advancing the pointer by [k] characters of the string lowers
    the count by [k]: for a string of [n] characters before the
    terminator, [n] below [2^32], and [k <= n], [CTL(p + k)] is [n - k].
    At [k = n] the pointer is at the terminator and the count is 0. *)
Theorem CTL_pointer_shift (s rest : list ascii) (k : Z) :
  NUL ∉ s → Z.of_nat (length s) < 2 ^ 32 → 0 ≤ k ≤ Z.of_nat (length s) →
  Impl.CTL (s ++ NUL :: rest) 0 = Some (Z.of_nat (length s)) ∧
  ∃ q, ptr_add (s ++ NUL :: rest) k = Some q ∧
       Impl.CTL q 0 = Some (Z.of_nat (length s) - k).
Proof.
  intros Hs Hlen Hk. split.
  - rewrite CTL_counts by (done || lia). by rewrite u32_small by lia.
  - exists (drop (Z.to_nat k) s ++ NUL :: rest). split.
    + unfold ptr_add. rewrite decide_True by (rewrite length_app; simpl; lia).
      by rewrite drop_app_le by lia.
    + rewrite CTL_counts by (by apply NUL_not_in_drop || lia).
      rewrite length_drop, u32_small by lia. f_equal. lia.
Qed.

Lemma CTL_pointer_shift_msvc :
  Impl.CTL (msvc_signature ty_classy ++ NUL :: []) 0
    = Some (Z.of_nat (length (msvc_signature ty_classy))) ∧
  ∃ q, ptr_add (msvc_signature ty_classy ++ NUL :: []) 36 = Some q ∧
       Impl.CTL q 0 = Some (Z.of_nat (length (msvc_signature ty_classy)) - 36).
Proof.
  apply (CTL_pointer_shift (msvc_signature ty_classy) [] 36).
  - by_computation.
  - vm_compute. reflexivity.
  - vm_compute. split; discriminate.
Defined.

(** ** [CTL] and [CTFV]: arrays with and without a terminator *)

Lemma CTFV_at_four (q : cptr) (tail : Z) : Impl.CTFV q tail 4 = Some (u32 (tail - 4)).
Proof. by destruct q. Qed.

Lemma void_scan_at_four (s : list ascii) : void_scan s 4 = Some 0%nat.
Proof. by destruct s. Qed.

Lemma CTFV_None_iff (p : cptr) (tail m : Z) :
  0 ≤ m < 4 →
  Impl.CTFV p tail m = None ↔ (NUL ∉ p) ∧ void_scan p m = None.
Proof.
  revert tail m. induction p as [|c p IH]; intros tail m Hm.
  - cbn [Impl.CTFV void_scan]. rewrite is_four_false by lia.
    split; [intros _; split; [apply not_elem_of_nil | done] | done].
  - cbn [Impl.CTFV void_scan]. rewrite is_four_false by lia.
    destruct (Ascii.eqb_spec c NUL) as [-> | Hc].
    + split; [done | intros [Hin _]; exfalso; apply Hin; constructor].
    + destruct (void_match_step m c) as (m1 & -> & Hm1 & _); [done|].
      cbn [mbind option_bind].
      destruct (decide (m1 = 4)) as [-> | Hne].
      * rewrite CTFV_at_four, void_scan_at_four. split; [done | by intros [_ ?]].
      * rewrite IH by lia. rewrite not_elem_of_cons.
        destruct (void_scan p m1); cbn [fmap option_fmap option_map];
          (split; intros H; [destruct H as [? ?] | destruct H as [[? ?] ?]];
           repeat split; try done; congruence).
Qed.

(** X3: [CTL] yields a value exactly on the arrays that hold a
    terminator; the scan [CTFV] fails to yield one exactly on the arrays
    that hold no terminator and on which its match counter never reads
    4.  On every other array the evaluation runs past the last element. *)
Theorem defined_on_terminated_arrays (p : cptr) (tail : Z) :
  (is_Some (Impl.CTL p tail) ↔ NUL ∈ p) ∧
  (Impl.CTFV p 0 0 = None ↔ (NUL ∉ p) ∧ void_scan p 0 = None).
Proof.
  split; [|apply CTFV_None_iff; lia].
  revert tail. induction p as [|c p IH]; intros tail; simpl.
  - split; [by intros [? ?] | by intros ?%elem_of_nil].
  - destruct (Ascii.eqb_spec c NUL) as [-> | Hc].
    + split; [intros _; constructor | by eexists].
    + rewrite IH, elem_of_cons. split; [by right | by intros [? | ?]].
Qed.

Lemma CTFV_completes (a q : list ascii) (tail m : Z) (k : nat) :
  NUL ∉ a → 0 ≤ m ≤ 4 → 0 ≤ tail < 2 ^ 32 →
  void_scan a m = Some k →
  Impl.CTFV (a ++ q) tail m = Some (u32 (tail + Z.of_nat k - 4)).
Proof.
  revert tail m k. induction a as [|c a IH]; intros tail m k Ha Hm Ht.
  - cbn [void_scan app]. destruct (Z.eqb_spec 4 m) as [<- | Hne]; [|done].
    intros [= <-]. rewrite CTFV_at_four. do 2 f_equal. lia.
  - apply not_elem_of_cons_NUL in Ha as [Hc Ha].
    cbn [void_scan app Impl.CTFV]. destruct (Z.eqb_spec 4 m) as [<- | Hne].
    + intros [= <-]. do 2 f_equal. lia.
    + rewrite eqb_NUL_false by done.
      destruct (void_match_step m c) as (m1 & -> & Hm1 & _); [lia|].
      cbn [mbind option_bind].
      destruct (void_scan a m1) as [k1|] eqn:Hk1; cbn [fmap option_fmap option_map]; [|done].
      intros [= <-]. rewrite (IH _ m1 k1) by (done || apply u32_range).
      rewrite <- Z.add_sub_assoc, u32_add_l. do 2 f_equal. lia.
Qed.

Lemma void_at_inside (s : list ascii) (i : nat) : void_at s i → (i + 4 ≤ length s)%nat.
Proof.
  unfold void_at. intros Hat.
  assert (length (take 4 (drop i s)) = 4%nat) as Hl by (by rewrite Hat).
  rewrite length_take, length_drop in Hl. lia.
Qed.

(** X4: when the literal occurs nowhere before the terminator, [CTFV]
    returns [-1] converted to [unsigned], whatever the array holds after
    the terminator: a run behind the terminator is not found. *)
Theorem CTFV_absent (s rest : list ascii) :
  NUL ∉ s → (∀ i, ¬ void_at s i) →
  Impl.CTFV (s ++ NUL :: rest) 0 0 = Some 4294967295.
Proof.
  intros Hs Habs. rewrite CTFV_void_scan by (done || lia).
  by rewrite (void_scan_absent s Habs).
Qed.

Lemma CTFV_absent_before_terminator :
  Impl.CTFV (chars "FFN<int>" ++ NUL :: chars "void") 0 0 = Some 4294967295.
Proof.
  apply (CTFV_absent (chars "FFN<int>") (chars "void")).
  - by_computation.
  - intros i Hat. pose proof (void_at_inside _ _ Hat) as Hi. revert Hat. unfold void_at.
    do 5 (destruct i as [|i]; [vm_compute; discriminate|]). simpl in Hi. lia.
Defined.

(** X5: the scan stops at the first completed match and reads nothing
    after it: when the match counter reads 4 after [k] of the characters
    [a], none of them a terminator, [CTFV] returns [k - 4] on every array
    that begins with [a], also on one that holds no terminator at all. *)
Theorem CTFV_stops_at_match (a q : list ascii) (k : nat) :
  NUL ∉ a → Z.of_nat (length a) < 2 ^ 32 → void_scan a 0 = Some k →
  Impl.CTFV (a ++ q) 0 0 = Some (Z.of_nat k - 4) ∧
  Impl.CTFV a 0 0 = Some (Z.of_nat k - 4).
Proof.
  intros Ha Hlen Hk.
  pose proof (void_scan_occurs a k Hk) as [Hrange _].
  assert (u32 (0 + Z.of_nat k - 4) = Z.of_nat k - 4) as Hu by (rewrite u32_small; lia).
  split.
  - rewrite (CTFV_completes a q 0 0 k) by (done || lia). by rewrite Hu.
  - rewrite <- (app_nil_r a) at 1.
    rewrite (CTFV_completes a [] 0 0 k) by (done || lia). by rewrite Hu.
Qed.

Lemma CTFV_stops_at_match_unterminated :
  Impl.CTFV (chars "FFN<void" ++ chars ">(void)") 0 0 = Some (Z.of_nat 8 - 4) ∧
  Impl.CTFV (chars "FFN<void") 0 0 = Some (Z.of_nat 8 - 4).
Proof.
  apply (CTFV_stops_at_match (chars "FFN<void") (chars ">(void)") 8).
  - by_computation.
  - vm_compute. reflexivity.
  - vm_compute. reflexivity.
Defined.

(** ** [CTFV]: which run of the literal is found *)

Lemma void_scan_before_first_run (s : list ascii) (i : nat) :
  (∀ j, (j < i)%nat → ¬ void_at s j) → void_scan (take i s) 0 = None.
Proof.
  intros Hfirst. destruct (void_scan (take i s) 0) as [k|] eqn:Hk; [|done].
  apply void_scan_occurs in Hk as [[Hk4 Hki] Hrun].
  rewrite length_take in Hki.
  apply void_at_take in Hrun; [|lia]. apply Hfirst in Hrun; [done|lia].
Qed.

(** After a character other than [v], [o] and [i] the counter reads 0,
    unless it reads 4. *)
Lemma counter_zero_after (a : list ascii) (c : ascii) (m : Z) :
  0 ≤ m < 4 → void_scan (a ++ [c]) m = None →
  c ≠ "v"%char → c ≠ "o"%char → c ≠ "i"%char →
  void_counter (a ++ [c]) m = Some 0.
Proof.
  intros Hm Hscan Hv Ho Hi. revert m Hm Hscan.
  induction a as [|x a IH]; intros m Hm; cbn [app void_scan void_counter];
    rewrite is_four_false by lia.
  - destruct (void_match_step m c) as (m1 & -> & Hm1 & Hstep); [done|].
    cbn [mbind option_bind]. intros Hscan.
    destruct Hstep as [[-> Hlit] | ->]; [|done].
    assert (m = 0 ∨ m = 1 ∨ m = 2 ∨ m = 3) as Hcases by lia.
    destruct Hcases as [-> | [-> | [-> | ->]]]; simpl in Hlit; try congruence.
    by vm_compute in Hscan.
  - destruct (void_match_step m x) as (m1 & -> & Hm1 & _); [done|].
    cbn [mbind option_bind]. intros Hscan.
    destruct (decide (m1 = 4)) as [-> | Hne].
    + by rewrite void_scan_at_four in Hscan.
    + apply IH; [lia|]. by destruct (void_scan (a ++ [c]) m1).
Qed.

(** A run that begins where the counter reads 1, 2 or 3 is passed over. *)
Lemma void_scan_run_missed (r : list ascii) (m : Z) :
  1 ≤ m ≤ 3 → void_scan (chars "void" ++ r) m = (λ k, 4 + k)%nat <$> void_scan r 0.
Proof.
  intros Hm. assert (m = 1 ∨ m = 2 ∨ m = 3) as Hcases by lia.
  destruct Hcases as [-> | [-> | ->]];
    change (chars "void" ++ r) with ("v" :: "o" :: "i" :: "d" :: r)%char;
    cbn [void_scan];
    repeat (match goal with
            | |- context [Impl.void_match ?m0 ?c] =>
                let v := eval vm_compute in (Impl.void_match m0 c) in
                change (Impl.void_match m0 c) with v
            end; cbn -[void_scan Impl.void_match]);
    by destruct (void_scan r 0).
Qed.

(** X6: [CTFV] returns the index of the first run of the literal when
    that run is at the very beginning of the string or follows a
    character other than [v], [o] and [i], as in the signatures of g++,
    clang and MSVC, where it follows a space or [<]. *)
Theorem CTFV_finds_first_run (s rest : list ascii) (i : nat) :
  NUL ∉ s → Z.of_nat (length s) < 2 ^ 32 →
  void_at s i → (∀ j, (j < i)%nat → ¬ void_at s j) →
  (∀ i' c, i = S i' → s !! i' = Some c → c ≠ "v"%char ∧ c ≠ "o"%char ∧ c ≠ "i"%char) →
  Impl.CTFV (s ++ NUL :: rest) 0 0 = Some (Z.of_nat i).
Proof.
  intros Hs Hlen Hat Hfirst Hprev.
  apply CTFV_finds_run_at_counter_zero; [done..|].
  destruct i as [|i']; [done|].
  pose proof (void_at_inside _ _ Hat) as Hin.
  destruct (lookup_lt_is_Some_2 s i') as [c Hc]; [lia|].
  destruct (Hprev i' c eq_refl Hc) as (Hv & Ho & Hi).
  pose proof (void_scan_before_first_run s (S i') Hfirst) as Hbefore.
  rewrite (take_S_r s i' c Hc) in Hbefore |- *.
  by apply counter_zero_after.
Qed.

Lemma CTFV_finds_first_run_gcc :
  Impl.CTFV (gcc_signature ty_void ++ NUL :: []) 0 0 = Some (Z.of_nat 50).
Proof.
  apply (CTFV_finds_first_run (gcc_signature ty_void) [] 50).
  - by_computation.
  - vm_compute. reflexivity.
  - reflexivity.
  - intros j Hj. unfold void_at.
    do 50 (destruct j as [|j]; [vm_compute; discriminate|]). lia.
  - intros i' c [= <-] [= <-]. repeat split; discriminate.
Defined.

(** X7: on a string that holds the literal, [CTFV] returns the index of
    the first run exactly when its match counter reads 0 where that run
    begins.  A first run that begins while the counter reads 1, 2 or 3,
    right after an unfinished match, is never the result. *)
Theorem CTFV_first_run_iff_counter_zero (s rest : list ascii) (i : nat) :
  NUL ∉ s → Z.of_nat (length s) < 2 ^ 32 →
  void_at s i → (∀ j, (j < i)%nat → ¬ void_at s j) →
  Impl.CTFV (s ++ NUL :: rest) 0 0 = Some (Z.of_nat i) ↔ void_counter (take i s) 0 = Some 0.
Proof.
  intros Hs Hlen Hat Hfirst. split; [|by apply CTFV_finds_run_at_counter_zero].
  pose proof (void_at_inside _ _ Hat) as Hin.
  pose proof (void_scan_before_first_run s i Hfirst) as Hbefore.
  destruct (void_scan_app (take i s) (drop i s) 0) as (m & Hm & Hrange & Hscan); [lia|done|].
  rewrite take_drop, length_take_le in Hscan by lia.
  rewrite Hm. intros Hfound.
  destruct (decide (m = 0)) as [-> | Hne]; [done|]. exfalso.
  rewrite CTFV_void_scan, Hscan in Hfound by (done || lia).
  rewrite <- (take_drop 4 (drop i s)) in Hfound at 1.
  unfold void_at in Hat. rewrite Hat, void_scan_run_missed in Hfound by lia.
  destruct (void_scan (drop 4 (drop i s)) 0) as [k|] eqn:Hk;
    cbn [fmap option_fmap option_map] in Hfound; injection Hfound as Hfound.
  - apply void_scan_occurs in Hk as [[Hk4 Hkl] _].
    rewrite !length_drop in Hkl. rewrite u32_small in Hfound by lia. lia.
  - rewrite u32_minus_one in Hfound. lia.
Qed.

Lemma CTFV_first_run_iff_counter_zero_vvoid :
  Impl.CTFV (vvoid_signature ty_void ++ NUL :: []) 0 0 = Some (Z.of_nat 4)
  ↔ void_counter (take 4 (vvoid_signature ty_void)) 0 = Some 0.
Proof.
  apply (CTFV_first_run_iff_counter_zero (vvoid_signature ty_void) [] 4).
  - by_computation.
  - vm_compute. reflexivity.
  - reflexivity.
  - intros j Hj. unfold void_at.
    do 4 (destruct j as [|j]; [vm_compute; discriminate|]). lia.
Defined.

(** ** [ISeq::STN] and [TNH]: the shape of a materialized name *)

Lemma STN_Some_inv (p : cptr) (N : Z) (name : Impl.CSW) :
  0 ≤ N < 2 ^ 32 →
  Impl.ISeq_STN N (Z.to_nat N) [] p = Some name →
  N ≤ Z.of_nat (length p) ∧ N + 1 < 2 ^ 32 ∧
  name = {| Impl.CSW_N := N + 1; Impl.val := take (Z.to_nat N) p ++ [NUL] |}.
Proof.
  intros HN Hname.
  destruct (decide (Z.of_nat (length p) < N)) as [Hout | Hin].
  { by rewrite STN_outside in Hname. }
  destruct (decide (N + 1 < 2 ^ 32)) as [Hfit | Hwrap].
  - replace N with (Z.of_nat (Z.to_nat N)) in Hname at 1 by lia.
    rewrite STN_copies in Hname by lia.
    injection Hname as <-. split; [lia|]. split; [done|]. do 2 f_equal. lia.
  - exfalso. assert (N + 1 = 2 ^ 32) as Hmax by lia.
    rewrite ISeq_STN_floor, app_nil_r in Hname. cbn [Impl.ISeq_STN] in Hname.
    rewrite gather_take in Hname by lia. cbn [mbind option_bind] in Hname.
    unfold Impl.CSW_init in Hname. rewrite Hmax in Hname.
    change (u32 (2 ^ 32)) with 0 in Hname.
    rewrite decide_False in Hname; [done|]. rewrite length_app. simpl. lia.
Qed.

(** X8: for a length [N], [ISeq<N>::STN] is a constant expression
    exactly when the [N] characters lie inside the array and [N + 1] does
    not wrap around, and its value is then the [N] characters followed by
    the terminator, with no padding.  For [N = 0] it is the array that
    holds the terminator alone, whatever the pointer. *)
Theorem STN_defined_iff (p : cptr) (N : Z) :
  0 ≤ N < 2 ^ 32 →
  (∀ name, Impl.ISeq_STN N (Z.to_nat N) [] p = Some name ↔
     N ≤ Z.of_nat (length p) ∧ N + 1 < 2 ^ 32 ∧
     name = {| Impl.CSW_N := N + 1; Impl.val := take (Z.to_nat N) p ++ [NUL] |}) ∧
  (N = 0 → Impl.ISeq_STN N (Z.to_nat N) [] p
           = Some {| Impl.CSW_N := 1; Impl.val := [NUL] |}).
Proof.
  intros HN. split.
  - intros name. split; [by apply STN_Some_inv|].
    intros (Hin & Hfit & ->).
    replace N with (Z.of_nat (Z.to_nat N)) at 1 by lia.
    rewrite STN_copies by lia. do 2 f_equal. lia.
  - intros ->. by destruct p.
Qed.

Lemma STN_defined_iff_sample :
  (∀ name, Impl.ISeq_STN 3 (Z.to_nat 3) [] (chars "int>") = Some name ↔
     3 ≤ Z.of_nat (length (chars "int>")) ∧ 3 + 1 < 2 ^ 32 ∧
     name = {| Impl.CSW_N := 3 + 1; Impl.val := take (Z.to_nat 3) (chars "int>") ++ [NUL] |}) ∧
  (3 = 0 → Impl.ISeq_STN 3 (Z.to_nat 3) [] (chars "int>")
           = Some {| Impl.CSW_N := 1; Impl.val := [NUL] |}).
Proof. apply (STN_defined_iff (chars "int>") 3). lia. Defined.

Lemma s_Len_range {type : Type} {C : Compiler type} (T : type) (N : Z) :
  Impl.s_Len T = Some N → 0 ≤ N < 2 ^ 32.
Proof.
  unfold Impl.s_Len. intros HN.
  destruct Impl.s_OffsetStart as [st|]; [|done]. cbn [mbind option_bind] in HN.
  destruct (ptr_add (Impl.FFN T) st) as [p|]; [|done]. cbn [mbind option_bind] in HN.
  destruct (Impl.CTL p 0) as [len|]; [|done]. cbn [mbind option_bind] in HN.
  destruct Impl.s_OffsetREnd as [re|]; [|done]. cbn [mbind option_bind] in HN.
  injection HN as <-. apply u32_range.
Qed.

(** X9: in every translation environment, a name record that is
    evaluated has an array of exactly [s_Len + 1] elements, the number
    its type [CSW<s_Len + 1>] gives; the last one is the terminator and
    the others are the elements of the signature array from the start
    offset on, all inside that array. *)
Theorem s_Str_shape {type : Type} {C : Compiler type} (T : type) (name : Impl.CSW) :
  Impl.s_Str T = Some name →
  ∃ st N,
    Impl.s_OffsetStart = Some st ∧ Impl.s_Len T = Some N ∧
    Impl.CSW_N name = N + 1 ∧
    Z.of_nat (length (Impl.val name)) = N + 1 ∧
    last (Impl.val name) = Some NUL ∧
    st + N ≤ Z.of_nat (length (Impl.FFN T)) ∧
    ∀ i, 0 ≤ i < N → subscript (Impl.val name) i = subscript (Impl.FFN T) (st + i).
Proof.
  unfold Impl.s_Str. intros Hname.
  destruct (Impl.s_Len T) as [N|] eqn:HN; [|done]. cbn [mbind option_bind] in Hname.
  destruct Impl.s_OffsetStart as [st|] eqn:Hst; [|done]. cbn [mbind option_bind] in Hname.
  pose proof (s_Len_range T N HN) as HNr.
  pose proof (s_OffsetStart_range st Hst) as Hstr.
  unfold ptr_add in Hname. case_decide as Hin; [|done]. cbn [mbind option_bind] in Hname.
  apply STN_Some_inv in Hname as (HNp & Hfit & ->); [|done].
  rewrite length_drop in HNp.
  set (n := Z.to_nat N). set (p := drop (Z.to_nat st) (Impl.FFN T)).
  assert (length (take n p) = n) as Htake.
  { apply length_take_le. subst n p. rewrite length_drop. lia. }
  exists st, N. cbn [Impl.CSW_N Impl.val].
  split; [done|]. split; [done|]. split; [done|]. split; [|split; [|split]].
  - rewrite length_app, Htake. simpl. lia.
  - apply last_snoc.
  - lia.
  - intros i Hi.
    replace i with (Z.of_nat (Z.to_nat i)) at 1 by lia.
    replace (st + i) with (Z.of_nat (Z.to_nat st + Z.to_nat i)) by lia.
    rewrite !subscript_lookup, lookup_app_l by lia.
    rewrite lookup_take_lt by lia. subst p. by rewrite lookup_drop.
Qed.

Lemma s_Str_shape_msvc :
  ∃ st N,
    Impl.s_OffsetStart (C:=msvc) = Some st ∧ Impl.s_Len (C:=msvc) ty_classy = Some N ∧
    Impl.CSW_N {| Impl.CSW_N := 13; Impl.val := chars "class classy" ++ [NUL] |} = N + 1 ∧
    Z.of_nat (length (Impl.val {| Impl.CSW_N := 13; Impl.val := chars "class classy" ++ [NUL] |}))
      = N + 1 ∧
    last (Impl.val {| Impl.CSW_N := 13; Impl.val := chars "class classy" ++ [NUL] |}) = Some NUL ∧
    st + N ≤ Z.of_nat (length (Impl.FFN (C:=msvc) ty_classy)) ∧
    ∀ i, 0 ≤ i < N →
      subscript (Impl.val {| Impl.CSW_N := 13; Impl.val := chars "class classy" ++ [NUL] |}) i
      = subscript (Impl.FFN (C:=msvc) ty_classy) (st + i).
Proof.
  apply (s_Str_shape (C:=msvc) ty_classy). vm_compute. reflexivity.
Defined.

(** ** The calibrated offsets and the names they give *)

Section Calibrated_pair.
Context {type : Type} {C : Compiler type}.

Lemma s_OffsetREnd_sentinel :
  Z.of_nat (length (Impl.FFN void)) < 2 ^ 32 →
  Impl.s_OffsetStart = Some (u32 (-1)) → Impl.s_OffsetREnd = None.
Proof.
  intros Hfit Hst. unfold Impl.s_OffsetREnd. rewrite Hst. cbn [mbind option_bind].
  destruct (ptr_add (Impl.FFN void) (u32 (-1))) as [p|] eqn:Hp; [|done].
  cbn [mbind option_bind]. rewrite ptr_add_None; [done|].
  unfold ptr_add in Hp. case_decide as Hle; [|done]. injection Hp as <-.
  rewrite length_drop. rewrite u32_minus_one in *. lia.
Qed.

Lemma s_Len_needs_REnd (T : type) : Impl.s_OffsetREnd = None → Impl.s_Len T = None.
Proof.
  intros Hre. unfold Impl.s_Len. rewrite Hre.
  destruct Impl.s_OffsetStart as [st|]; [|done]. cbn [mbind option_bind].
  destruct (ptr_add _ _) as [p|]; [|done]. cbn [mbind option_bind].
  by destruct (Impl.CTL p 0).
Qed.

(** Whenever both offsets are evaluated, the signature of [void] splits
    at them around the literal. *)
Lemma calibrated_split (st re : Z) :
  plain_signature void →
  Impl.s_OffsetStart = Some st → Impl.s_OffsetREnd = Some re →
  ∃ pre suf, signature void = pre ++ chars "void" ++ suf ∧
             Z.of_nat (length pre) = st ∧ Z.of_nat (length suf) = re.
Proof.
  intros [Hnul Hfit] Hst Hre.
  pose proof Hst as Hscan. unfold Impl.s_OffsetStart, Impl.FFN in Hscan.
  rewrite CTFV_void_scan in Hscan by (done || lia).
  destruct (void_scan (signature void) 0) as [k|] eqn:Hk; injection Hscan as <-.
  - apply void_scan_occurs in Hk as [[Hk4 HkL] Hat].
    unfold Impl.FFN in Hfit. rewrite length_app in Hfit. simpl in Hfit.
    rewrite u32_small in Hst |- * by lia.
    set (sig := signature void) in *.
    assert (sig = take (k - 4) sig ++ chars "void" ++ drop 4 (drop (k - 4) sig)) as Hsig.
    { unfold void_at in Hat. by rewrite <- Hat, !take_drop. }
    assert (length (take (k - 4) sig) = (k - 4)%nat) as Hpre by (apply length_take_le; lia).
    exists (take (k - 4) sig), (drop 4 (drop (k - 4) sig)).
    split; [done|]. split; [lia|].
    rewrite (s_OffsetREnd_of (take (k - 4) sig) (drop 4 (drop (k - 4) sig)) []) in Hre.
    + injection Hre as <-. rewrite u32_small; [done|]. rewrite !length_drop. lia.
    + unfold Impl.FFN. fold sig. rewrite Hsig at 1. by rewrite <- !app_assoc.
    + by do 2 apply NUL_not_in_drop.
    + rewrite Hst. f_equal. lia.
  - by rewrite s_OffsetREnd_sentinel in Hre.
Qed.

(** The name of a type whose signature reaches the suffix. *)
Lemma GetName_window (T : type) (st re : Z) :
  plain_signature T →
  Impl.s_OffsetStart = Some st → Impl.s_OffsetREnd = Some re →
  st + re ≤ Z.of_nat (length (signature T)) →
  GetName T = Some {| storage := TNH_s_Str T;
                      target := drop (Z.to_nat st)
                                  (take (Z.to_nat (Z.of_nat (length (signature T)) - re))
                                     (signature T)) ++ [NUL] |}.
Proof.
  intros HT Hst Hre Hspan.
  pose proof (s_OffsetStart_range _ Hst) as Hst_range.
  pose proof (s_OffsetREnd_range _ Hre) as Hre_range.
  pose proof HT as [Hnul Hfit].
  unfold Impl.FFN in Hfit. rewrite length_app in Hfit. simpl in Hfit.
  set (L := Z.of_nat (length (signature T))) in *.
  assert (Impl.s_Len T = Some (L - st - re)) as Hlen.
  { rewrite (s_Len_plain T st re) by (done || lia). fold L.
    rewrite u32_small by lia. done. }
  set (i := Z.to_nat st). set (N := Z.to_nat (L - st - re)).
  assert (length (take i (signature T)) = i) as Hi by (apply length_take_le; lia).
  rewrite (GetName_of T {| Impl.CSW_N := Z.of_nat N + 1;
             Impl.val := take N (drop i (signature T) ++ [NUL]) ++ [NUL] |}).
  - cbn [Impl.val]. do 3 f_equal.
    rewrite take_app_le by (rewrite length_drop; lia).
    rewrite take_drop_commute. do 2 f_equal. lia.
  - apply (s_Str_of T (take i (signature T))).
    + rewrite Hlen. f_equal. lia.
    + rewrite Hst. f_equal. lia.
    + unfold Impl.FFN. by rewrite app_assoc, take_drop.
    + rewrite length_app, length_drop. simpl. lia.
    + lia.
Qed.

End Calibrated_pair.

(** X10: whenever the two offsets are evaluated on a plain signature of
    [void], the literal lies at the start offset and the start offset,
    the four characters of the literal and the suffix length add up to
    the length of that signature. *)
Theorem calibrated_offsets_frame_the_literal {type : Type} {C : Compiler type} (st re : Z) :
  plain_signature void →
  Impl.s_OffsetStart = Some st → Impl.s_OffsetREnd = Some re →
  void_at (signature void) (Z.to_nat st) ∧
  st + 4 + re = Z.of_nat (length (signature void)) ∧
  Impl.CTL (Impl.FFN void) 0 = Some (st + 4 + re).
Proof.
  intros Hvoid Hst Hre.
  destruct (calibrated_split st re Hvoid Hst Hre) as (pre & suf & Hsig & <- & <-).
  destruct Hvoid as [Hnul Hfit].
  unfold Impl.FFN in Hfit |- *. rewrite length_app in Hfit. simpl in Hfit.
  assert (Z.of_nat (length pre) + 4 + Z.of_nat (length suf)
          = Z.of_nat (length (signature void))) as Hsum.
  { rewrite Hsig, !length_app. simpl. lia. }
  split; [|split; [done|]].
  - unfold void_at. rewrite Hsig, Nat2Z.id, drop_app_length.
    by rewrite take_app_length' by done.
  - rewrite CTL_counts by (done || lia). rewrite u32_small by lia. f_equal. lia.
Qed.

Lemma calibrated_offsets_frame_the_literal_msvc :
  void_at (msvc_signature ty_void) (Z.to_nat 36) ∧
  36 + 4 + 7 = Z.of_nat (length (msvc_signature ty_void)) ∧
  Impl.CTL (Impl.FFN (C:=msvc) ty_void) 0 = Some (36 + 4 + 7).
Proof.
  apply (calibrated_offsets_frame_the_literal (C:=msvc) 36 7).
  - split; [by_computation | vm_compute; reflexivity].
  - vm_compute. reflexivity.
  - vm_compute. reflexivity.
Defined.

(** X11: on a plain signature of [void], [GetName<void>()] is never a
    wrong name: either it is not a constant expression, or it refers to
    the array [v], [o], [i], [d] and the terminator. *)
Theorem GetName_void_or_nothing {type : Type} {C : Compiler type} :
  plain_signature void →
  GetName void = None ∨
  GetName void = Some {| storage := TNH_s_Str void; target := chars "void" ++ [NUL] |}.
Proof.
  intros Hvoid.
  destruct Impl.s_OffsetREnd as [re|] eqn:Hre;
    [|left; by apply GetName_None, s_Len_needs_REnd].
  destruct Impl.s_OffsetStart as [st|] eqn:Hst;
    [|left; apply GetName_None; unfold Impl.s_Len; by rewrite Hst].
  right.
  destruct (calibrated_split st re Hvoid Hst Hre) as (pre & suf & Hsig & <- & <-).
  destruct Hvoid as [Hnul Hfit].
  unfold Impl.FFN in Hfit. rewrite Hsig, !length_app in Hfit. simpl in Hfit.
  assert (NUL ∉ chars "void" ++ suf) as Hw.
  { rewrite Hsig in Hnul. by apply not_elem_of_app in Hnul as [_ ?]. }
  assert (Impl.FFN void = pre ++ (chars "void" ++ suf) ++ NUL :: []) as Hffn.
  { unfold Impl.FFN. by rewrite Hsig, <- !app_assoc. }
  assert (Impl.s_Len void = Some 4) as Hlen.
  { rewrite (s_Len_of void pre (chars "void" ++ suf) [] _ Hst Hre Hffn Hw).
    rewrite length_app. simpl length.
    rewrite (u32_small (Z.of_nat (4 + length suf))) by lia.
    rewrite u32_small by lia. f_equal. lia. }
  apply (GetName_of void {| Impl.CSW_N := 5; Impl.val := chars "void" ++ [NUL] |}).
  rewrite (s_Str_of void pre (chars "void" ++ suf ++ [NUL]) 4 Hlen Hst);
    [done | by rewrite Hffn, <- !app_assoc | simpl; lia | lia].
Qed.

Lemma GetName_void_or_nothing_samples :
  (GetName (C:=vvoid_compiler) ty_void = None ∨
   GetName (C:=vvoid_compiler) ty_void
     = Some {| storage := TNH_s_Str ty_void; target := chars "void" ++ [NUL] |}) ∧
  (GetName (C:=msvc) ty_void = None ∨
   GetName (C:=msvc) ty_void
     = Some {| storage := TNH_s_Str ty_void; target := chars "void" ++ [NUL] |}).
Proof.
  split.
  - apply (GetName_void_or_nothing (C:=vvoid_compiler)).
    split; [by_computation | vm_compute; reflexivity].
  - apply (GetName_void_or_nothing (C:=msvc)).
    split; [by_computation | vm_compute; reflexivity].
Defined.

(** X12: the length of a name depends on the lengths of two signatures
    only: where it is evaluated, [s_Len] of [T] is the length of the
    signature of [T] minus the length of the signature of [void] plus 4,
    in [unsigned] arithmetic; the start offset cancels out.  Types with
    plain signatures of the same length have the same [s_Len]. *)
Theorem s_Len_from_lengths {type : Type} {C : Compiler type} (T : type) (st re : Z) :
  plain_signature void → plain_signature T →
  Impl.s_OffsetStart = Some st → Impl.s_OffsetREnd = Some re →
  st ≤ Z.of_nat (length (signature T)) →
  Impl.s_Len T
    = Some (u32 (Z.of_nat (length (signature T)) - Z.of_nat (length (signature void)) + 4)) ∧
  ∀ U, plain_signature U → length (signature U) = length (signature T) →
       Impl.s_Len U = Impl.s_Len T.
Proof.
  intros Hvoid HT Hst Hre Hle.
  pose proof (s_OffsetStart_range _ Hst) as Hst_range.
  destruct (calibrated_split st re Hvoid Hst Hre) as (pre & suf & Hsig & Hpre & Hsuf).
  assert (Z.of_nat (length (signature void)) = st + 4 + re) as Hsum.
  { rewrite Hsig, !length_app. simpl. lia. }
  rewrite (s_Len_plain T st re) by (done || lia). split.
  - do 2 f_equal. lia.
  - intros U HU Hsame. rewrite (s_Len_plain U st re) by (done || lia).
    by rewrite Hsame.
Qed.

Lemma s_Len_from_lengths_gcc :
  Impl.s_Len (C:=gcc) ty_classy
    = Some (u32 (Z.of_nat (length (gcc_signature ty_classy))
                 - Z.of_nat (length (gcc_signature ty_void)) + 4)) ∧
  ∀ U, plain_signature (C:=gcc) U →
       length (gcc_signature U) = length (gcc_signature ty_classy) →
       Impl.s_Len (C:=gcc) U = Impl.s_Len (C:=gcc) ty_classy.
Proof.
  apply (s_Len_from_lengths (C:=gcc) ty_classy 50 1).
  - split; [by_computation | vm_compute; reflexivity].
  - split; [by_computation | vm_compute; reflexivity].
  - vm_compute. reflexivity.
  - vm_compute. reflexivity.
  - vm_compute. discriminate.
Defined.

(** X13: when every signature is a common prefix, the spelling of the
    type and a common suffix, the literal does not occur in the signature
    of [void] before the spelling, and the prefix does not end with [v],
    [o] or [i], then the start offset is the length of the prefix, the
    suffix length is the length of the suffix, and [GetName<T>()] is the
    spelling of [T] followed by the terminator, for every type. *)
Theorem GetName_is_spelling {type : Type} {C : Compiler type}
    (prefix suffix : list ascii) (spelling : type → list ascii) :
  uniform_boilerplate prefix suffix spelling →
  plain_signature void →
  (∀ j, (j < length prefix)%nat → ¬ void_at (signature void) j) →
  (∀ c, last prefix = Some c → c ≠ "v"%char ∧ c ≠ "o"%char ∧ c ≠ "i"%char) →
  Impl.s_OffsetStart = Some (Z.of_nat (length prefix)) ∧
  Impl.s_OffsetREnd = Some (Z.of_nat (length suffix)) ∧
  ∀ T, plain_signature T →
    GetName T = Some {| storage := TNH_s_Str T; target := spelling T ++ [NUL] |} ∧
    c_str (spelling T ++ [NUL]) = spelling T.
Proof.
  intros Hunif Hvoid Hfirst Hlast.
  pose proof Hunif as [Hshape Hspell]. pose proof Hvoid as [Hnul Hfit].
  assert (signature void = prefix ++ chars "void" ++ suffix) as Hsig
    by (by rewrite Hshape, Hspell).
  unfold Impl.FFN in Hfit. rewrite length_app in Hfit. simpl in Hfit.
  assert (Impl.s_OffsetStart = Some (Z.of_nat (length prefix))) as Hst.
  { unfold Impl.s_OffsetStart, Impl.FFN.
    apply CTFV_finds_run_at_counter_zero; [done | lia | | done |].
    - unfold void_at. rewrite Hsig, drop_app_length. by rewrite take_app_length'.
    - pose proof (void_scan_before_first_run _ _ Hfirst) as Hbefore.
      rewrite Hsig, take_app_length in Hbefore |- *.
      assert (prefix = [] ∨ ∃ a c, prefix = a ++ [c]) as [-> | (a & c & ->)]
        by (destruct prefix using rev_ind; eauto).
      + done.
      + destruct (Hlast c (last_snoc c a)) as (Hv & Ho & Hi).
        by apply counter_zero_after. }
  split; [done|]. split.
  - rewrite (s_OffsetREnd_of prefix suffix []).
    + rewrite u32_small; [done|]. rewrite Hsig, !length_app in Hfit. lia.
    + unfold Impl.FFN. by rewrite Hsig, <- !app_assoc.
    + rewrite Hsig in Hnul. by apply not_elem_of_app in Hnul as [_ [_ ?]%not_elem_of_app].
    + done.
  - intros T HT. by apply (GetName_spelling prefix suffix).
Qed.

Lemma GetName_is_spelling_msvc :
  Impl.s_OffsetStart (C:=msvc)
    = Some (Z.of_nat (length (chars "const char *__cdecl CTNR::Impl::FFN<"))) ∧
  Impl.s_OffsetREnd (C:=msvc) = Some (Z.of_nat (length (chars ">(void)"))) ∧
  ∀ T, plain_signature (C:=msvc) T →
    GetName (C:=msvc) T
      = Some {| storage := TNH_s_Str T; target := chars (msvc_spelling T) ++ [NUL] |} ∧
    c_str (chars (msvc_spelling T) ++ [NUL]) = chars (msvc_spelling T).
Proof.
  apply (GetName_is_spelling (C:=msvc)
           (chars "const char *__cdecl CTNR::Impl::FFN<") (chars ">(void)")
           (λ T, chars (msvc_spelling T))).
  - split; reflexivity.
  - split; [by_computation | vm_compute; reflexivity].
  - intros j Hj. unfold void_at.
    do 36 (destruct j as [|j]; [vm_compute; discriminate|]). simpl in Hj. lia.
  - intros c [= <-]. repeat split; discriminate.
Defined.

(** X14: with both offsets evaluated on plain signatures, [GetName<T>()]
    is a constant expression exactly when the signature of [T] is at
    least as long as the start offset plus the suffix length, and it then
    refers to the characters of the signature between the start offset
    and the suffix, followed by the terminator. *)
Theorem GetName_defined_iff {type : Type} {C : Compiler type}
    (T : type) (st re : Z) (r : array_ref type) :
  plain_signature void → plain_signature T →
  Impl.s_OffsetStart = Some st → Impl.s_OffsetREnd = Some re →
  GetName T = Some r ↔
    st + re ≤ Z.of_nat (length (signature T)) ∧
    r = {| storage := TNH_s_Str T;
           target := drop (Z.to_nat st)
                       (take (Z.to_nat (Z.of_nat (length (signature T)) - re))
                          (signature T)) ++ [NUL] |}.
Proof.
  intros Hvoid HT Hst Hre. split.
  - intros Hr.
    assert (st + re ≤ Z.of_nat (length (signature T))) as Hspan.
    { destruct (decide (st + re ≤ Z.of_nat (length (signature T)))) as [|Hneg]; [done|].
      exfalso.
      pose proof (s_OffsetStart_range _ Hst) as Hst_range.
      pose proof (s_OffsetREnd_range _ Hre) as Hre_range.
      pose proof (s_OffsetREnd_below _ Hre) as Hre_below.
      destruct Hvoid as [_ Hfit_void].
      unfold GetName, Impl.s_Str in Hr.
      destruct (Impl.s_Len T) as [N|] eqn:HN; [|done]. cbn [mbind option_bind] in Hr.
      pose proof (s_Len_defined T st N Hst HN) as Hle.
      rewrite (s_Len_plain T st re) in HN by (done || lia).
      rewrite u32_borrow in HN by lia. injection HN as <-.
      rewrite Hst in Hr. cbn [mbind option_bind] in Hr.
      unfold ptr_add in Hr. case_decide; [|done]. cbn [mbind option_bind] in Hr.
      rewrite STN_outside in Hr; [done|].
      rewrite length_drop. unfold Impl.FFN. rewrite length_app. simpl. lia. }
    split; [done|].
    rewrite (GetName_window T st re HT Hst Hre Hspan) in Hr. by injection Hr as <-.
  - intros [Hspan ->]. by apply GetName_window.
Qed.

Lemma GetName_defined_iff_msvc :
  GetName (C:=msvc) ty_classy
    = Some {| storage := TNH_s_Str ty_classy; target := chars "class classy" ++ [NUL] |} ↔
    36 + 7 ≤ Z.of_nat (length (msvc_signature ty_classy)) ∧
    {| storage := TNH_s_Str ty_classy; target := chars "class classy" ++ [NUL] |}
    = {| storage := TNH_s_Str ty_classy;
         target := drop (Z.to_nat 36)
                     (take (Z.to_nat (Z.of_nat (length (msvc_signature ty_classy)) - 7))
                        (msvc_signature ty_classy)) ++ [NUL] |}.
Proof.
  apply (GetName_defined_iff (C:=msvc) ty_classy 36 7).
  - split; [by_computation | vm_compute; reflexivity].
  - split; [by_computation | vm_compute; reflexivity].
  - vm_compute. reflexivity.
  - vm_compute. reflexivity.
Defined.
